(** * tarbgz: random access to TAR archives compressed with BGZF

    A shallow embedding of [tarbgz.py] and the properties of its forward-only
    seek adapter ([BgzfWrapper]), its hierarchical index ([IndexNode],
    [Index]) and the index-building and directory-listing loops of [main].

    Conventions of the embedding.
    - Python integers are [Z]; byte strings are [list byte]; text strings are
      [string]; a [dict] keyed by names is a [gmap string _].
    - A call that can raise returns a [PyResult]; a method that mutates its
      object returns the new object (the index is a tree: [make_child]
      always allocates a fresh node, so no node is shared between paths).
    - [Index.atomize_path] is recursive and has no base case for some
      inputs; it is embedded with the interpreter's recursion budget as an
      explicit argument [depth], and running out of it is the
      [RuntimeError] "maximum recursion depth exceeded". *)

From Stdlib Require Import ZArith String Ascii Lia.
From Stdlib.Init Require Import Byte.
From stdpp Require Import gmap strings list fin_maps.

Local Open Scope string_scope.
Local Open Scope list_scope.
Local Open Scope Z_scope.

(** ** Exceptions and results *)

(** The two [assert] statements of [BgzfWrapper.seek]. *)
Inductive SeekAssertion : Set :=
| whence_is_not_SEEK_END   (* assert(whence != os.SEEK_END) *)
| distance_is_nonnegative. (* assert(distance >= 0) *)

Inductive Exception : Set :=
| AssertionError (failed : SeekAssertion)
| RuntimeError_not_found (part : string)  (* RuntimeError("{} not found") *)
| RuntimeError_recursion_depth            (* maximum recursion depth exceeded *)
| KeyError (name : string)                (* self.children[name] on a missing key *)
| ReadError.                              (* tarfile: malformed archive *)

Inductive PyResult (A : Type) : Type :=
| Returns (a : A)
| Raises (e : Exception).

Arguments Returns {A} a.
Arguments Raises {A} e.

Definition bind {A B : Type} (m : PyResult A) (k : A -> PyResult B) : PyResult B :=
  match m with
  | Returns a => k a
  | Raises e => Raises e
  end.

Notation "x <- m ;; k" := (bind m (fun x => k))
  (at level 100, m at next level, right associativity).

(** ** [os.path.split] and [os.path.join] (POSIX flavour)

    Library functions of Python, written out from [posixpath.py]:
<<
    def split(p):
        i = p.rfind('/') + 1
        head, tail = p[:i], p[i:]
        if head and head != '/'*len(head):
            head = head.rstrip('/')
        return head, tail
>>
*)

Definition is_slash (c : ascii) : bool := Ascii.eqb c "/"%char.

(** [p.rfind('/') + 1]: one past the last slash, [0] when there is none. *)
Fixpoint rfind_slash_succ (p : string) : nat :=
  match p with
  | EmptyString => 0%nat
  | String c p' =>
      match rfind_slash_succ p' with
      | O => if is_slash c then 1%nat else 0%nat
      | S i => S (S i)
      end
  end.

(** [p[:i]] *)
Fixpoint str_take (i : nat) (p : string) : string :=
  match i, p with
  | S i', String c p' => String c (str_take i' p')
  | _, _ => EmptyString
  end.

(** [p[i:]] *)
Fixpoint str_drop (i : nat) (p : string) : string :=
  match i, p with
  | S i', String c p' => str_drop i' p'
  | _, _ => p
  end.

(** [head == '/'*len(head)] *)
Fixpoint all_slashes (p : string) : bool :=
  match p with
  | EmptyString => true
  | String c p' => is_slash c && all_slashes p'
  end.

(** [p.rstrip('/')] *)
Fixpoint rstrip_slash (p : string) : string :=
  match p with
  | EmptyString => EmptyString
  | String c p' =>
      match rstrip_slash p' with
      | EmptyString => if is_slash c then EmptyString else String c EmptyString
      | r => String c r
      end
  end.

Definition is_empty (p : string) : bool :=
  match p with
  | EmptyString => true
  | String _ _ => false
  end.

Definition os_path_split (p : string) : string * string :=
  let i := rfind_slash_succ p in
  let head := str_take i p in
  let tail := str_drop i p in
  let head := if negb (is_empty head) && negb (all_slashes head)
              then rstrip_slash head else head in
  (head, tail).

(** [os.path.join(a, b)] for two arguments:
<<
    path = a
    if b.startswith('/'):   path = b
    elif path == '' or path.endswith('/'):  path += b
    else:  path += '/' + b
>>
*)
Definition startswith_slash (p : string) : bool :=
  match p with
  | String c _ => is_slash c
  | EmptyString => false
  end.

Fixpoint endswith_slash (p : string) : bool :=
  match p with
  | EmptyString => false
  | String c EmptyString => is_slash c
  | String _ p' => endswith_slash p'
  end.

Definition os_path_join (a b : string) : string :=
  if startswith_slash b then b
  else if is_empty a || endswith_slash a then a +:+ b
  else a +:+ "/" +:+ b.

(** ** [Index.atomize_path]

    The recursion of the source is on [head], which is not a structural
    subterm of [path]; [depth] counts the stack frames still available. *)
Fixpoint atomize_path (depth : nat) (path : string) : PyResult (list string) :=
  match depth with
  | O => Raises RuntimeError_recursion_depth
  | S depth' =>
      let '(head, tail) := os_path_split path in
      parts <- (if negb (is_empty head) then atomize_path depth' head
                else Returns []) ;;
      Returns (if negb (is_empty tail) then parts ++ [tail] else parts)
  end.

(** ** Index entries and index nodes *)

Record IndexEntry : Set := mkIndexEntry {
  virtual_offset : Z;
  real_offset : Z;
  size : Z;
  next_virtual_offset : Z
}.

#[warnings="-register-all"]
Inductive IndexNode : Set := mkIndexNode {
  children : gmap string IndexNode;
  entry : option IndexEntry
}.

(** [IndexNode()] *)
Definition new_node : IndexNode := mkIndexNode ∅ None.

Definition has_child (self : IndexNode) (name : string) : bool :=
  bool_decide (is_Some (children self !! name)).

(** [self.children[name] = IndexNode()] *)
Definition make_child (self : IndexNode) (name : string) : IndexNode :=
  mkIndexNode (<[name := new_node]> (children self)) (entry self).

(** [return self.children[name]] *)
Definition get_child (self : IndexNode) (name : string) : PyResult IndexNode :=
  match children self !! name with
  | Some child => Returns child
  | None => Raises (KeyError name)
  end.

(** [self.children.iterkeys()], as the list of the names it yields. *)
Definition get_children (self : IndexNode) : list string :=
  (map_to_list (children self)).*1.

(** The effect, seen from [self], of mutating the child object that
    [get_child name] returned: the child is a reference held in
    [self.children]. *)
Definition store_child (self : IndexNode) (name : string) (child : IndexNode)
  : IndexNode :=
  mkIndexNode (<[name := child]> (children self)) (entry self).

(** [directory.entry = entry] *)
Definition set_entry (self : IndexNode) (e : IndexEntry) : IndexNode :=
  mkIndexNode (children self) (Some e).

(** ** The index *)

Record Index : Set := mkIndex { root : IndexNode }.

(** [Index()] *)
Definition new_index : Index := mkIndex new_node.

(** The loop of [Index.insert] from the node [directory] on. *)
Fixpoint insert_walk (directory : IndexNode) (parts : list string)
    (e : IndexEntry) : PyResult IndexNode :=
  match parts with
  | [] => Returns (set_entry directory e)
  | part :: parts' =>
      let directory := if negb (has_child directory part)
                       then make_child directory part else directory in
      child <- get_child directory part ;;
      child' <- insert_walk child parts' e ;;
      Returns (store_child directory part child')
  end.

Definition insert (depth : nat) (self : Index) (path : string) (e : IndexEntry)
  : PyResult Index :=
  parts <- atomize_path depth path ;;
  root' <- insert_walk (root self) parts e ;;
  Returns (mkIndex root').

(** The loop of [Index.readdir]. *)
Fixpoint readdir_walk (directory : IndexNode) (parts : list string)
  : PyResult (list string) :=
  match parts with
  | [] => Returns (get_children directory)
  | part :: parts' =>
      if negb (has_child directory part)
      then Raises (RuntimeError_not_found part)
      else child <- get_child directory part ;; readdir_walk child parts'
  end.

Definition readdir (depth : nat) (self : Index) (path : string)
  : PyResult (list string) :=
  parts <- atomize_path depth path ;;
  readdir_walk (root self) parts.

(** The loop of [Index.get]. *)
Fixpoint get_walk (directory : IndexNode) (parts : list string)
  : PyResult (option IndexEntry) :=
  match parts with
  | [] => Returns (entry directory)
  | part :: parts' =>
      if negb (has_child directory part)
      then Returns None
      else child <- get_child directory part ;; get_walk child parts'
  end.

Definition get (depth : nat) (self : Index) (path : string)
  : PyResult (option IndexEntry) :=
  parts <- atomize_path depth path ;;
  get_walk (root self) parts.

(** The node a component list leads to, when every component is present. *)
Fixpoint node_at (n : IndexNode) (parts : list string) : option IndexNode :=
  match parts with
  | [] => Some n
  | part :: parts' =>
      match children n !! part with
      | Some child => node_at child parts'
      | None => None
      end
  end.

(** ** The block-decompression reader

    [Bio.bgzf.BgzfReader] is a library class; the program uses its [read]
    and [tell] (and [seek], in the extraction branch only).  [reader_tell]
    is the BGZF virtual offset, a Python integer. *)
Class BgzfReader (R : Type) : Type := {
  reader_read : R -> Z -> list byte * R;
  reader_tell : R -> Z
}.

(** ** [BgzfWrapper] *)

Record BgzfWrapper (R : Type) : Type := mkBgzfWrapper {
  reader : R;
  offset : Z
}.

Arguments mkBgzfWrapper {R} reader offset.
Arguments reader {R} b.
Arguments offset {R} b.

Definition SEEK_SET : Z := 0.
Definition SEEK_CUR : Z := 1.
Definition SEEK_END : Z := 2.

Definition len {A : Type} (l : list A) : Z := Z.of_nat (length l).

Section Wrapper.
Context {R : Type} `{BgzfReader R}.

(** [BgzfWrapper(reader, initial_offset=0)] *)
Definition new_wrapper (r : R) (initial_offset : Z) : BgzfWrapper R :=
  mkBgzfWrapper r initial_offset.

Definition read (self : BgzfWrapper R) (n : Z) : list byte * BgzfWrapper R :=
  let '(bytes_read, r) := reader_read (reader self) n in
  (bytes_read, mkBgzfWrapper r (offset self + len bytes_read)).

Definition tell (self : BgzfWrapper R) : Z := offset self.

(** The [while distance > 0] loop of [seek], as a big-step relation that
    also records the length [dist_read] of every read it makes. *)
Inductive seek_while : BgzfWrapper R -> Z -> list Z -> BgzfWrapper R -> Prop :=
| seek_while_exit self distance :
    distance <= 0 ->
    seek_while self distance [] self
| seek_while_break self distance bytes_read self' :
    0 < distance ->
    read self distance = (bytes_read, self') ->
    len bytes_read = 0 ->
    seek_while self distance [0] self'
| seek_while_again self distance bytes_read self' reads self'' :
    0 < distance ->
    read self distance = (bytes_read, self') ->
    len bytes_read <> 0 ->
    seek_while self' (distance - len bytes_read) reads self'' ->
    seek_while self distance (len bytes_read :: reads) self''.

(** The same loop as a function; [fuel] bounds the number of iterations. *)
Fixpoint seek_loop (fuel : nat) (self : BgzfWrapper R) (distance : Z)
  : BgzfWrapper R :=
  if 0 <? distance then
    match fuel with
    | O => self
    | S fuel' =>
        let '(bytes_read, self') := read self distance in
        let dist_read := len bytes_read in
        if dist_read =? 0 then self'
        else seek_loop fuel' self' (distance - dist_read)
    end
  else self.

(** [seek]: every iteration that does not leave the loop lowers
    [distance] by at least one, so [distance] iterations are enough
    (see [seek_loop_seek_while]). *)
Definition seek (self : BgzfWrapper R) (target : Z) (whence : Z)
  : PyResult unit * BgzfWrapper R :=
  let distance := target in
  let distance := if whence =? SEEK_SET then distance - offset self
                  else distance in
  if whence =? SEEK_END
  then (Raises (AssertionError whence_is_not_SEEK_END), self)
  else if negb (0 <=? distance)
  then (Raises (AssertionError distance_is_nonnegative), self)
  else (Returns tt, seek_loop (Z.to_nat distance) self distance).
End Wrapper.

(** ** The archive-format parser

    [tarfile.TarFile] is a library class.  All it can do to the compressed
    archive goes through the file object it was given, the wrapper: it
    reads, seeks (absolutely) and asks for the position, and between such
    calls it hands a member to the [for] loop, or stops, or fails.  A
    [TarFile] is the tree of those interactions; [tar_member info next k]
    is the iterator yielding [info] with [archive_tar.offset = next]. *)
Record TarInfo : Set := mkTarInfo {
  info_name : string;
  info_size : Z
}.

Inductive TarFile : Type :=
| tar_read (n : Z) (k : list byte -> TarFile)
| tar_seek (pos : Z) (k : TarFile)
| tar_tell (k : Z -> TarFile)
| tar_member (info : TarInfo) (next : Z) (k : TarFile)
| tar_stop
| tar_error.

(** ** [main], [--index]: building the index *)

Record IndexState (R : Type) : Type := mkIndexState {
  archive_wrapper : BgzfWrapper R;
  bgzf_offset : Z;
  tar_offset : Z;
  index : Index;
  created : list IndexEntry   (* every [IndexEntry(...)] made, in order *)
}.

Arguments mkIndexState {R} _ _ _ _ _.
Arguments archive_wrapper {R} i.
Arguments bgzf_offset {R} i.
Arguments tar_offset {R} i.
Arguments index {R} i.
Arguments created {R} i.

Section BuildIndex.
Context {R : Type} `{BgzfReader R}.

Definition with_wrapper (st : IndexState R) (w : BgzfWrapper R) : IndexState R :=
  mkIndexState w (bgzf_offset st) (tar_offset st) (index st) (created st).

(** [for info in archive_tar: ...], the parser's own reads included. *)
Fixpoint index_loop (depth : nat) (archive_tar : TarFile) (st : IndexState R)
  : PyResult unit * IndexState R :=
  match archive_tar with
  | tar_read n k =>
      let '(bytes_read, w) := read (archive_wrapper st) n in
      index_loop depth (k bytes_read) (with_wrapper st w)
  | tar_seek pos k =>
      match seek (archive_wrapper st) pos SEEK_SET with
      | (Returns _, w) => index_loop depth k (with_wrapper st w)
      | (Raises ex, w) => (Raises ex, with_wrapper st w)
      end
  | tar_tell k =>
      index_loop depth (k (tell (archive_wrapper st))) st
  | tar_member info next k =>
      match seek (archive_wrapper st) next SEEK_SET with
      | (Raises ex, w) => (Raises ex, with_wrapper st w)
      | (Returns _, w) =>
          let e := mkIndexEntry (bgzf_offset st) (tar_offset st)
                     (info_size info) (reader_tell (reader w)) in
          let made := created st ++ [e] in
          match insert depth (index st) (info_name info) e with
          | Raises ex =>
              (Raises ex,
               mkIndexState w (bgzf_offset st) (tar_offset st) (index st) made)
          | Returns index' =>
              index_loop depth k
                (mkIndexState w (reader_tell (reader w)) (tell w) index' made)
          end
      end
  | tar_stop => (Returns tt, st)
  | tar_error => (Raises ReadError, st)
  end.

(** The [options.index] branch up to the end of the loop, on the reader
    [archive_bgzf] just opened. *)
Definition main_index (depth : nat) (archive_bgzf : R) (archive_tar : TarFile)
  : PyResult unit * IndexState R :=
  let archive_wrapper := new_wrapper archive_bgzf 0 in
  let bgzf_offset := reader_tell archive_bgzf in
  let tar_offset := tell archive_wrapper in
  index_loop depth archive_tar
    (mkIndexState archive_wrapper bgzf_offset tar_offset new_index []).
End BuildIndex.

(** ** [main], [--find]: listing a directory

    Each [print("{}\t{}".format(full_name, size))] is a line
    [(full_name, size)] of the output. *)
Fixpoint find_loop (depth : nat) (index : Index) (find : string)
    (names : list string) : PyResult unit * list (string * Z) :=
  match names with
  | [] => (Returns tt, [])
  | basename :: names' =>
      let full_name := os_path_join find basename in
      let size0 := 0 in
      match get depth index full_name with
      | Raises ex => (Raises ex, [])
      | Returns entry =>
          let size1 := match entry with
                       | Some e => size e
                       | None => size0
                       end in
          let '(result, printed) := find_loop depth index find names' in
          (result, (full_name, size1) :: printed)
      end
  end.

Definition main_find (depth : nat) (index : Index) (find : string)
  : PyResult unit * list (string * Z) :=
  match readdir depth index find with
  | Raises ex => (Raises ex, [])
  | Returns names => find_loop depth index find names
  end.

(** ** An in-memory reader

    A reader over a byte list cut into blocks of [block_size] decompressed
    bytes, each taking [block_raw] bytes of the compressed file; its virtual
    offset is the start of the current block in the compressed file, shifted
    left by 16 bits, plus the position inside the block. *)
Record MemReader : Set := mkMemReader {
  consumed : Z;
  pending : list byte
}.

Definition block_size : Z := 4.
Definition block_raw : Z := 3.

Definition mem_read (r : MemReader) (n : Z) : list byte * MemReader :=
  let bytes_read := take (Z.to_nat n) (pending r) in
  (bytes_read,
   mkMemReader (consumed r + len bytes_read) (drop (Z.to_nat n) (pending r))).

Definition mem_tell (r : MemReader) : Z :=
  Z.shiftl (block_raw * (consumed r / block_size)) 16 + consumed r mod block_size.

#[export] Instance mem_reader : BgzfReader MemReader := {
  reader_read := mem_read;
  reader_tell := mem_tell
}.

Definition mem_open (data : list byte) : MemReader := mkMemReader 0 data.

(** * Specification vocabulary *)

(** ** Paths *)

(** The slash-delimited pieces of a path, empty ones included, and its
    components: the pieces that are not empty. *)
Fixpoint split_slash (p : string) : list string :=
  match p with
  | EmptyString => [EmptyString]
  | String c p' =>
      if is_slash c then EmptyString :: split_slash p'
      else match split_slash p' with
           | piece :: pieces => String c piece :: pieces
           | [] => [String c EmptyString]
           end
  end.

Definition components (p : string) : list string :=
  List.filter (fun piece => negb (is_empty piece)) (split_slash p).

Fixpoint no_slash (p : string) : bool :=
  match p with
  | EmptyString => true
  | String c p' => negb (is_slash c) && no_slash p'
  end.

(** A name that can be one component of a path. *)
Definition is_component (name : string) : bool :=
  negb (is_empty name) && no_slash name.

(** A path for a list of components. *)
Definition join_components (parts : list string) : string :=
  fold_left os_path_join parts "".

(** ** The index tree *)

(** What [insert_walk] builds, without the intermediate exceptions. *)
Fixpoint insert_at (n : IndexNode) (parts : list string) (e : IndexEntry)
  : IndexNode :=
  match parts with
  | [] => set_entry n e
  | part :: parts' =>
      let child := default new_node (children n !! part) in
      mkIndexNode (<[part := insert_at child parts' e]> (children n)) (entry n)
  end.

(** The first component of [parts] that is missing on the way down from [n]. *)
Fixpoint first_absent (n : IndexNode) (parts : list string) : option string :=
  match parts with
  | [] => None
  | part :: parts' =>
      match children n !! part with
      | Some child => first_absent child parts'
      | None => Some part
      end
  end.

(** Every name in the tree is a single component. *)
Definition names_are_components (n : IndexNode) : Prop :=
  forall q m name,
    node_at n q = Some m -> is_Some (children m !! name) ->
    is_component name = true.

(** The indexes the program makes: the empty one, and what an insertion
    makes of one. *)
Inductive built : Index -> Prop :=
| built_new : built new_index
| built_insert depth idx path e idx' :
    built idx -> insert depth idx path e = Returns idx' -> built idx'.

(** ** Listings *)

(** The size printed for a child. *)
Definition printed_size (child : option IndexNode) : Z :=
  match child ≫= entry with
  | Some e => size e
  | None => 0
  end.

(** The listing as the specification words it: each child by its own
    name, with the size of its entry, and with no size at all when it has
    no entry. *)
Definition lists_names_and_sizes (m : IndexNode) (printed : list (string * Z))
  : Prop :=
  forall name child, children m !! name = Some child ->
    match entry child with
    | Some e => (name, size e) ∈ printed
    | None => forall n, (name, n) ∉ printed
    end.

(** ** Index entries *)

(** Entries that follow one another from the coordinate [c] on. *)
Fixpoint chained (c : Z) (entries : list IndexEntry) : Prop :=
  match entries with
  | [] => True
  | e :: entries' =>
      virtual_offset e = c /\
      c <= next_virtual_offset e /\
      chained (next_virtual_offset e) entries'
  end.

(** ** Readers *)

(** What the program relies on from the reader's [read(n)], for [n > 0]:
    it returns the next bytes of the decompressed stream, at most [n] of
    them, and none only at the end of the stream.  [stream r] is what is
    left to read. *)
Class StreamReader (R : Type) `{BgzfReader R} : Type := {
  stream : R -> list byte;
  read_next : forall r n, 0 < n ->
    stream r = (reader_read r n).1 ++ stream (reader_read r n).2;
  read_at_most : forall r n, 0 < n -> len (reader_read r n).1 <= n;
  read_some : forall r n, 0 < n -> stream r <> [] -> (reader_read r n).1 <> []
}.

(** The virtual offset never goes down when reading. *)
Class MonotoneReader (R : Type) `{BgzfReader R} : Prop := {
  read_advances : forall r n, reader_tell r <= reader_tell (reader_read r n).2
}.

(** The in-memory reader is such a reader. *)
#[export, refine] Instance mem_reader_stream : StreamReader MemReader := {
  stream := pending
}.
Proof.
  - intros r n _. simpl. by rewrite take_drop.
  - intros r n Hn. simpl. unfold len. rewrite length_take. lia.
  - intros r n Hn Hne. simpl.
    destruct (pending r) as [|b bs]; [done|].
    destruct (Z.to_nat n) as [|k] eqn:Hk; [lia|]. done.
Defined.

(** * Examples *)

Definition result_or {A : Type} (d : A) (r : PyResult A) : A :=
  match r with
  | Returns a => a
  | Raises _ => d
  end.

Definition entry_a : IndexEntry := mkIndexEntry 0 0 10 1024.
Definition entry_b : IndexEntry := mkIndexEntry 1024 512 0 1536.
Definition entry_c : IndexEntry := mkIndexEntry 1536 1024 5000 65536.

Definition index_b : Index :=
  result_or new_index (insert 8 new_index "dir/b" entry_b).
Definition index_bc : Index :=
  result_or new_index (insert 8 index_b "dir/b" entry_c).
Definition index_b_dir : Index :=
  result_or new_index (insert 8 index_b "dir" entry_a).

(** The members [a] (10 bytes), [dir/b] (empty) and [dir/c] (5000 bytes). *)
Definition index_abc : Index :=
  result_or new_index (
    idx <- insert 8 new_index "a" entry_a ;;
    idx <- insert 8 idx "dir/b" entry_b ;;
    insert 8 idx "dir/c" entry_c).

Definition node_dir : IndexNode :=
  default new_node (node_at (root index_abc) ["dir"]).

Definition ten_bytes : list byte :=
  [x00; x01; x02; x03; x04; x05; x06; x07; x08; x09].

(** A wrapper at offset 6 of the ten bytes. *)
Definition wrapper_at_6 : BgzfWrapper MemReader :=
  (seek (new_wrapper (mem_open ten_bytes) 0) 6 SEEK_SET).2.

(** An archive of two members read through the in-memory reader: the
    parser reads a header of two bytes before each member. *)
Definition two_members : TarFile :=
  tar_read 2 (fun _ =>
  tar_member (mkTarInfo "a" 1) 3 (
  tar_read 2 (fun _ =>
  tar_member (mkTarInfo "dir/b" 4) 9 tar_stop))).

(** * The rest of the adapter and of [main] *)

(** ** [BgzfWrapper.readline]

    [Bio.bgzf.BgzfReader.readline] is the one more method of the reader the
    wrapper calls. *)
Class BgzfLineReader (R : Type) `{BgzfReader R} : Type := {
  reader_readline : R -> list byte * R
}.

(** [BgzfReader.seek(virtual_offset)], used by the extraction branch. *)
Class BgzfSeekReader (R : Type) `{BgzfReader R} : Type := {
  reader_seek : R -> Z -> R
}.

(** The calls a user of the file-like object can make. *)
Inductive FileCall : Set :=
| call_read (n : Z)
| call_readline
| call_tell
| call_seek (target whence : Z).

Section WrapperCalls.
Context {R : Type} `{BgzfLineReader R}.

Definition readline (self : BgzfWrapper R) : list byte * BgzfWrapper R :=
  let '(line, r) := reader_readline (reader self) in
  (line, mkBgzfWrapper r (offset self + len line)).

(** The wrapper after a call, whether the call returned or raised. *)
Definition after_call (self : BgzfWrapper R) (c : FileCall) : BgzfWrapper R :=
  match c with
  | call_read n => (read self n).2
  | call_readline => (readline self).2
  | call_tell => self
  | call_seek target whence => (seek self target whence).2
  end.

Definition after_calls (self : BgzfWrapper R) (calls : list FileCall)
  : BgzfWrapper R :=
  fold_left after_call calls self.
End WrapperCalls.

(** ** [main], [--extract]: from the lookup to the wrapper handed to
    [tarfile.TarFile]

    The branch returns 1 when the path has no entry; otherwise it opens the
    archive, seeks the reader to the entry's virtual offset and wraps it
    with the entry's real offset as initial offset. *)
Inductive ExtractStart (R : Type) : Type :=
| extract_return (code : Z)
| extract_wrapped (archive_wrapper : BgzfWrapper R).

Arguments extract_return {R} code.
Arguments extract_wrapped {R} archive_wrapper.

Section Extract.
Context {R : Type} `{BgzfSeekReader R}.

(** [archive_bgzf] is the reader that [bgzf.BgzfReader(archive_path, "rb")]
    gives, opened only when the entry is found. *)
Definition main_extract_start (depth : nat) (index : Index) (extract : string)
    (archive_bgzf : R) : PyResult (ExtractStart R) :=
  entry <- get depth index extract ;;
  match entry with
  | None => Returns (extract_return 1)
  | Some e =>
      let archive_bgzf := reader_seek archive_bgzf (virtual_offset e) in
      Returns (extract_wrapped (new_wrapper archive_bgzf (real_offset e)))
  end.
End Extract.

(** ** More vocabulary *)

(** The reader states that reads lead to. *)
Inductive reads_to {R : Type} `{BgzfReader R} : R -> R -> Prop :=
| reads_to_refl r : reads_to r r
| reads_to_read r n r' : reads_to (reader_read r n).2 r' -> reads_to r r'.

(** [readline] returns the next bytes of the stream too. *)
Class StreamLineReader (R : Type) `{BgzfLineReader R} `{!StreamReader R}
  : Prop := {
  readline_next : forall r,
    stream r = (reader_readline r).1 ++ stream (reader_readline r).2
}.

(** Seeking a reader to the virtual offset that a reader of the same file
    told, after reading from the start [r0], puts it where that reader
    was. *)
Class SeekBackReader (R : Type) `{BgzfSeekReader R} `{!StreamReader R}
  : Prop := {
  seek_tell : forall r0 r, reads_to r0 r ->
    stream (reader_seek r0 (reader_tell r)) = stream r
}.

(** An entry whose two offsets are one position of the archive read from
    [r0]: a reader state that tells the virtual offset, with the real offset
    many bytes of the decompressed stream behind it. *)
Definition positioned {R : Type} `{BgzfReader R} `{!StreamReader R}
    (r0 : R) (e : IndexEntry) : Prop :=
  exists r, reads_to r0 r /\
    reader_tell r = virtual_offset e /\
    0 <= real_offset e /\
    stream r = drop (Z.to_nat (real_offset e)) (stream r0).

(** The wrapper has read from [r0], and its offset counts the bytes of
    the stream of [r0] that are behind it. *)
Definition in_step {R : Type} `{BgzfReader R} `{!StreamReader R}
    (r0 : R) (w : BgzfWrapper R) : Prop :=
  reads_to r0 (reader w) /\
  0 <= offset w /\
  stream (reader w) = drop (Z.to_nat (offset w)) (stream r0).

(** The entries an index holds: those at its nodes. *)
Definition holds (idx : Index) (e : IndexEntry) : Prop :=
  exists q m, node_at (root idx) q = Some m /\ entry m = Some e.

(** No node but the root is without an entry and without a child. *)
Definition no_empty_directory (n : IndexNode) : Prop :=
  forall q m, q <> [] -> node_at n q = Some m ->
    entry m = None -> children m <> ∅.

(** The indexes made by inserting the entries [es], in this order. *)
Inductive built_from : list IndexEntry -> Index -> Prop :=
| built_from_new : built_from [] new_index
| built_from_insert es depth idx path e idx' :
    built_from es idx -> insert depth idx path e = Returns idx' ->
    built_from (es ++ [e]) idx'.

(** The real offsets of a list of entries never go down, from [o] on. *)
Fixpoint real_offsets_ascend (o : Z) (entries : list IndexEntry) : Prop :=
  match entries with
  | [] => True
  | e :: entries' =>
      o <= real_offset e /\ real_offsets_ascend (real_offset e) entries'
  end.

(** The calls the reader supports: [read] needs a positive size (the
    docstring of [BgzfWrapper.read]: reading whatever is available is not
    implemented). *)
Definition supported_call (c : FileCall) : Prop :=
  match c with
  | call_read n => 0 < n
  | _ => True
  end.

(** A parser that only ever asks for a positive number of bytes, as
    [tarfile] does (blocks of 512 bytes). *)
Fixpoint reads_blocks (archive_tar : TarFile) : Prop :=
  match archive_tar with
  | tar_read n k => 0 < n /\ forall bytes_read, reads_blocks (k bytes_read)
  | tar_seek _ k => reads_blocks k
  | tar_tell k => forall position, reads_blocks (k position)
  | tar_member _ _ k => reads_blocks k
  | tar_stop => True
  | tar_error => True
  end.

(** ** The in-memory reader, lines and seeks *)

Fixpoint take_line (l : list byte) : list byte :=
  match l with
  | [] => []
  | b :: l' => if Byte.eqb b x0a then [b] else b :: take_line l'
  end.

Definition mem_readline (r : MemReader) : list byte * MemReader :=
  let line := take_line (pending r) in
  (line, mkMemReader (consumed r + len line) (drop (length line) (pending r))).

#[export] Instance mem_line_reader : BgzfLineReader MemReader := {
  reader_readline := mem_readline
}.

(** The position in the decompressed data that a virtual offset stands
    for. *)
Definition mem_position (virtual : Z) : Z :=
  block_size * (Z.shiftr virtual 16 / block_raw) + Z.land virtual (Z.ones 16).

(** A seek forward from [r]: the reader keeps only what it has not read. *)
Definition mem_seek (r : MemReader) (virtual : Z) : MemReader :=
  let position := mem_position virtual in
  mkMemReader position (drop (Z.to_nat (position - consumed r)) (pending r)).

#[export] Instance mem_seek_reader : BgzfSeekReader MemReader := {
  reader_seek := mem_seek
}.

(** Calls on a wrapper of the ten bytes: the last seek is backward. *)
Definition some_calls : list FileCall :=
  [call_read 2; call_tell; call_seek 5 SEEK_SET; call_readline;
   call_seek 3 SEEK_SET].

Definition index_b_then_a : Index :=
  result_or new_index (insert 8 index_b "a" entry_a).
Definition index_a : Index :=
  result_or new_index (insert 8 new_index "a" entry_a).

(** A member named from the root of the file system. *)
Definition absolute_member : TarFile :=
  tar_member (mkTarInfo "/etc/passwd" 4) 6 tar_stop.

Definition index_two_members : Index :=
  index (main_index 8 (mem_open ten_bytes) two_members).2.

(** * Properties *)

(** ** The index tree *)

Lemma has_child_true n name :
  has_child n name = true <-> is_Some (children n !! name).
Proof. unfold has_child. by rewrite bool_decide_eq_true. Qed.

Lemma has_child_false n name :
  has_child n name = false <-> children n !! name = None.
Proof.
  unfold has_child. rewrite bool_decide_eq_false.
  by rewrite eq_None_not_Some.
Qed.

Lemma has_child_lookup n name :
  has_child n name = match children n !! name with Some _ => true | None => false end.
Proof.
  destruct (children n !! name) eqn:E.
  - apply has_child_true; eauto.
  - by apply has_child_false.
Qed.

(** The guarded [get_child] of [insert] never raises [KeyError]. *)
Lemma insert_walk_insert_at parts : forall n e,
  insert_walk n parts e = Returns (insert_at n parts e).
Proof.
  induction parts as [|part parts IH]; intros n e; simpl; [done|].
  rewrite has_child_lookup. unfold get_child.
  destruct (children n !! part) as [child|] eqn:E; simpl.
  - rewrite E. simpl. rewrite IH. done.
  - rewrite lookup_insert_eq. simpl. rewrite IH. simpl.
    unfold store_child. simpl. by rewrite insert_insert_eq.
Qed.

Lemma get_walk_node_at parts : forall n,
  get_walk n parts =
  Returns (match node_at n parts with Some m => entry m | None => None end).
Proof.
  induction parts as [|part parts IH]; intros n; simpl; [done|].
  rewrite has_child_lookup. unfold get_child.
  destruct (children n !! part) as [child|]; simpl; [apply IH | done].
Qed.

Lemma readdir_walk_node_at parts : forall n,
  readdir_walk n parts =
  match first_absent n parts with
  | Some part => Raises (RuntimeError_not_found part)
  | None =>
      match node_at n parts with
      | Some m => Returns (get_children m)
      | None => Raises (KeyError "")
      end
  end.
Proof.
  induction parts as [|part parts IH]; intros n; simpl; [done|].
  rewrite has_child_lookup. unfold get_child.
  destruct (children n !! part) as [child|]; simpl; [apply IH | done].
Qed.

Lemma first_absent_node_at parts : forall n,
  first_absent n parts = None <-> is_Some (node_at n parts).
Proof.
  induction parts as [|part parts IH]; intros n; simpl.
  - split; eauto.
  - destruct (children n !! part) as [child|]; [apply IH|].
    split; [done | intros [? ?]; done].
Qed.

Lemma first_absent_elem parts : forall n part,
  first_absent n parts = Some part -> part ∈ parts.
Proof.
  induction parts as [|p parts IH]; intros n part; simpl; [done|].
  destruct (children n !! p) as [child|].
  - intros Hf. right. eauto.
  - intros [= ->]. left.
Qed.

Lemma elem_of_get_children n name :
  name ∈ get_children n <-> is_Some (children n !! name).
Proof.
  unfold get_children. rewrite list_elem_of_fmap. split.
  - intros [[k v] [-> Hin]]. apply elem_of_map_to_list in Hin. simpl. eauto.
  - intros [v Hv]. exists (name, v). split; [done|].
    by apply elem_of_map_to_list.
Qed.

Lemma NoDup_get_children n : NoDup (get_children n).
Proof. apply NoDup_fst_map_to_list. Qed.

(** The node that [insert] leaves at the inserted path. *)
Lemma node_at_insert_at parts : forall n e,
  node_at (insert_at n parts e) parts =
  Some (set_entry (default new_node (node_at n parts)) e).
Proof.
  induction parts as [|part parts IH]; intros n e; simpl; [done|].
  rewrite lookup_insert_eq, IH.
  destruct (children n !! part) as [child|]; simpl; [done|].
  do 2 f_equal. destruct parts; simpl; [done|]. by rewrite lookup_empty.
Qed.

Lemma insert_at_insert_at parts : forall n ea eb,
  insert_at (insert_at n parts ea) parts eb = insert_at n parts eb.
Proof.
  induction parts as [|part parts IH]; intros n ea eb; simpl; [done|].
  rewrite lookup_insert_eq. simpl. rewrite IH.
  by rewrite insert_insert_eq.
Qed.

Lemma get_walk_new_node parts : get_walk new_node parts = Returns None.
Proof.
  destruct parts as [|part parts]; simpl; [done|].
  rewrite has_child_lookup. simpl. by rewrite lookup_empty.
Qed.

Lemma get_walk_insert_at_ne parts : forall n e q,
  q <> parts -> get_walk (insert_at n parts e) q = get_walk n q.
Proof.
  induction parts as [|part parts IH]; intros n e q Hne.
  - destruct q as [|c q]; [done|]. done.
  - destruct q as [|c q]; [done|]. simpl.
    rewrite !has_child_lookup. unfold get_child. simpl.
    destruct (decide (part = c)) as [->|Hc].
    + rewrite lookup_insert_eq. simpl.
      assert (q <> parts) as Hq by congruence.
      rewrite (IH _ _ _ Hq).
      destruct (children n !! c) as [child|]; simpl; [done|].
      apply get_walk_new_node.
    + by rewrite lookup_insert_ne.
Qed.

(** Every node that was there is still there, with what it had. *)
Lemma node_at_insert_at_frame parts : forall n e q m,
  node_at n q = Some m ->
  exists m', node_at (insert_at n parts e) q = Some m' /\
    (q <> parts -> entry m' = entry m) /\
    (q = parts -> entry m' = Some e /\ children m' = children m) /\
    (~ q `prefix_of` parts -> m' = m) /\
    (forall c, is_Some (children m !! c) -> is_Some (children m' !! c)).
Proof.
  induction parts as [|part parts IH]; intros n e q m Hq.
  - destruct q as [|c q]; simpl in *.
    + injection Hq as <-. eexists. split; [done|].
      split; [done|]. split; [done|]. split; [|done].
      intros Hn. destruct Hn. by exists [].
    + exists m. split; [done|]. split; [done|]. split; [done|]. done.
  - destruct q as [|c q]; simpl in *.
    + injection Hq as <-. eexists. split; [done|].
      split; [done|]. split; [done|]. split.
      * intros Hn. destruct Hn. apply prefix_nil.
      * simpl. intros c Hc. destruct (decide (part = c)) as [->|Hne].
        -- rewrite lookup_insert_eq. eauto.
        -- by rewrite lookup_insert_ne.
    + destruct (decide (part = c)) as [->|Hne].
      * rewrite lookup_insert_eq.
        destruct (children n !! c) as [child|] eqn:E; [|done]. simpl.
        destruct (IH child e q m Hq) as (m' & Hm' & H1 & H2 & H3 & H4).
        exists m'. split; [done|]. split; [|split; [|split]].
        -- intros Hn. apply H1. congruence.
        -- intros [= ->]. by apply H2.
        -- intros Hn. apply H3. intros Hp. apply Hn. by apply prefix_cons.
        -- done.
      * rewrite lookup_insert_ne by done.
        exists m. split; [done|]. split; [done|]. split; [|split; [done|done]].
        intros [= ? ?]. done.
Qed.

(** After an insertion the path is there, one component after the other. *)
Lemma node_at_insert_at_prefix parts : forall n e pre c rest,
  parts = pre ++ c :: rest ->
  exists m, node_at (insert_at n parts e) pre = Some m /\
            is_Some (children m !! c).
Proof.
  induction parts as [|part parts IH]; intros n e pre c rest Hp.
  - by destruct pre.
  - destruct pre as [|p pre]; simpl in *.
    + injection Hp as -> ->. eexists. split; [done|]. simpl.
      rewrite lookup_insert_eq. eauto.
    + injection Hp as -> ->. rewrite lookup_insert_eq. eapply IH. done.
Qed.

Lemma insert_inv depth idx path e idx' :
  insert depth idx path e = Returns idx' ->
  exists parts, atomize_path depth path = Returns parts /\
                idx' = mkIndex (insert_at (root idx) parts e).
Proof.
  unfold insert. destruct (atomize_path depth path) as [parts|]; simpl; [|done].
  rewrite insert_walk_insert_at. simpl. intros [= <-]. eauto.
Qed.

(** C2. Inserting twice at the same path keeps only the later entry: when
    [insert(path, ea)] and then [insert(path, eb)] have been performed, the
    index is the one that [insert(path, eb)] alone would have made, and
    [get(path)] returns [eb]. *)
Theorem insert_twice_get_later depth idx path ea eb idx1 idx2 :
  insert depth idx path ea = Returns idx1 ->
  insert depth idx1 path eb = Returns idx2 ->
  get depth idx2 path = Returns (Some eb) /\
  insert depth idx path eb = Returns idx2.
Proof.
  intros Ha Hb.
  apply insert_inv in Ha as (parts & Hparts & ->).
  apply insert_inv in Hb as (parts' & Hparts' & ->).
  rewrite Hparts in Hparts'. injection Hparts' as <-. simpl.
  rewrite insert_at_insert_at. split.
  - unfold get. rewrite Hparts. simpl.
    rewrite get_walk_node_at, node_at_insert_at. done.
  - unfold insert. rewrite Hparts. simpl.
    by rewrite insert_walk_insert_at.
Qed.

Lemma insert_twice_get_later_witness :
  get 8 index_bc "dir/b" = Returns (Some entry_c) /\
  insert 8 new_index "dir/b" entry_c = Returns index_bc.
Proof.
  apply (insert_twice_get_later 8 new_index "dir/b" entry_b entry_c
           index_b index_bc); vm_compute; reflexivity.
Defined.

(** C10. Insertion changes nothing at any other path.  When
    [insert(path, e)] has been performed, with [parts] the components of
    [path]: every node [m] that was at a component list [q] is still at
    [q], as a node [m'] that has every child name [m] had; [m'] has the
    entry of [m] unless [q] is the inserted path, where it has [e] and
    exactly the children of [m]; [m'] is [m] itself unless [q] is a prefix
    of the inserted path.  So [get] answers as before at every path whose
    components differ from [parts], and a listing loses no name. *)
Theorem insert_frame depth idx path e idx' :
  insert depth idx path e = Returns idx' ->
  exists parts, atomize_path depth path = Returns parts /\
    (forall q m, node_at (root idx) q = Some m ->
       exists m', node_at (root idx') q = Some m' /\
         (q <> parts -> entry m' = entry m) /\
         (q = parts -> entry m' = Some e /\ children m' = children m) /\
         (~ q `prefix_of` parts -> m' = m) /\
         (forall c, is_Some (children m !! c) -> is_Some (children m' !! c))) /\
    (forall other q, atomize_path depth other = Returns q -> q <> parts ->
       get depth idx' other = get depth idx other) /\
    (forall other names, readdir depth idx other = Returns names ->
       exists names', readdir depth idx' other = Returns names' /\
                      names ⊆ names').
Proof.
  intros Hi. apply insert_inv in Hi as (parts & Hparts & ->).
  exists parts. split; [done|]. simpl. split; [|split].
  - intros q m Hq. by apply node_at_insert_at_frame.
  - intros other q Hother Hne. unfold get. rewrite Hother. simpl.
    by apply get_walk_insert_at_ne.
  - intros other names. unfold readdir.
    destruct (atomize_path depth other) as [q|]; simpl; [|done].
    rewrite !readdir_walk_node_at.
    destruct (first_absent (root idx) q) as [part|] eqn:Hf; [done|].
    apply first_absent_node_at in Hf as [m Hm]. rewrite Hm.
    intros [= <-].
    destruct (node_at_insert_at_frame parts (root idx) e q m Hm)
      as (m' & Hm' & _ & _ & _ & Hc).
    exists (get_children m').
    assert (first_absent (insert_at (root idx) parts e) q = None) as ->.
    { apply first_absent_node_at. rewrite Hm'. eauto. }
    rewrite Hm'. split; [done|].
    intros c. rewrite !elem_of_get_children. apply Hc.
Qed.

Lemma insert_frame_witness :
  get 8 index_b_dir "dir/b" = Returns (Some entry_b) /\
  get 8 index_b_dir "dir" = Returns (Some entry_a) /\
  exists names', readdir 8 index_b_dir "dir" = Returns names' /\ ["b"] ⊆ names'.
Proof.
  destruct (insert_frame 8 index_b "dir" entry_a index_b_dir)
    as (parts & Hparts & Hnode & Hget & Hdir); [vm_compute; reflexivity|].
  split; [|split].
  - rewrite (Hget "dir/b" ["dir"; "b"]).
    + vm_compute; reflexivity.
    + vm_compute; reflexivity.
    + vm_compute in Hparts. injection Hparts as <-. discriminate.
  - vm_compute; reflexivity.
  - apply Hdir. vm_compute; reflexivity.
Defined.

(** ** The forward-seek adapter *)

Lemma len_nil_inv {A : Type} (l : list A) : len l = 0 -> l = [].
Proof. unfold len. destruct l; simpl; [done | lia]. Qed.

Lemma len_app {A : Type} (l k : list A) : len (l ++ k) = len l + len k.
Proof. unfold len. rewrite length_app. lia. Qed.

Lemma len_nonneg {A : Type} (l : list A) : 0 <= len l.
Proof. unfold len. lia. Qed.

Section WrapperProperties.
Context {R : Type} `{BgzfReader R}.

Lemma read_unfold (self : BgzfWrapper R) n :
  read self n =
  ((reader_read (reader self) n).1,
   mkBgzfWrapper (reader_read (reader self) n).2
     (offset self + len (reader_read (reader self) n).1)).
Proof. unfold read. by destruct (reader_read (reader self) n). Qed.

(** [seek_loop] is the [while] loop: [distance] iterations are enough. *)
Lemma seek_loop_seek_while fuel : forall (self : BgzfWrapper R) distance,
  (Z.to_nat distance <= fuel)%nat ->
  exists reads, seek_while self distance reads (seek_loop fuel self distance).
Proof.
  induction fuel as [|fuel IH]; intros self distance Hfuel; simpl.
  - destruct (0 <? distance) eqn:Hd.
    + apply Z.ltb_lt in Hd. lia.
    + apply Z.ltb_ge in Hd. exists []. by constructor.
  - destruct (0 <? distance) eqn:Hd.
    + apply Z.ltb_lt in Hd.
      destruct (read self distance) as [bytes_read self'] eqn:Hread.
      destruct (len bytes_read =? 0) eqn:Hlen.
      * apply Z.eqb_eq in Hlen. exists [0].
        by eapply seek_while_break.
      * apply Z.eqb_neq in Hlen.
        pose proof (len_nonneg bytes_read) as Hnn.
        destruct (IH self' (distance - len bytes_read)) as [reads Hreads];
          [lia|].
        exists (len bytes_read :: reads).
        by eapply seek_while_again.
    + apply Z.ltb_ge in Hd. exists []. by constructor.
Qed.

(** C7. [seek] from the end fails on the first assertion, whatever the
    offset given, and a backward [seek] (an absolute target behind the
    current offset, or a negative relative distance) fails on the second;
    in both cases the adapter is left as it was, its offset included.
    The two assertions are the program's [UnsupportedOperation] and
    [InvalidSeek]. *)
Theorem seek_rejects_end_and_backward (self : BgzfWrapper R) :
  (forall target,
     seek self target SEEK_END =
     (Raises (AssertionError whence_is_not_SEEK_END), self)) /\
  (forall target, target < tell self ->
     seek self target SEEK_SET =
     (Raises (AssertionError distance_is_nonnegative), self)) /\
  (forall distance, distance < 0 ->
     seek self distance SEEK_CUR =
     (Raises (AssertionError distance_is_nonnegative), self)).
Proof.
  split; [|split].
  - intros target. reflexivity.
  - intros target Hback. unfold seek, tell in *. simpl.
    destruct (0 <=? target - offset self) eqn:Hd; [|done].
    apply Z.leb_le in Hd. lia.
  - intros distance Hneg. unfold seek. simpl.
    destruct (0 <=? distance) eqn:Hd; [|done].
    apply Z.leb_le in Hd. lia.
Qed.

Section Stream.
Context `{!StreamReader R}.

(** What the loop has consumed when it stops. *)
Lemma seek_while_consumes (self : BgzfWrapper R) distance reads self' :
  seek_while self distance reads self' ->
  exists eaten,
    stream (reader self) = eaten ++ stream (reader self') /\
    offset self' = offset self + len eaten /\
    len eaten <= Z.max distance 0 /\
    (len eaten < distance ->
     stream (reader self') = [] /\ last reads = Some 0).
Proof.
  induction 1 as [self distance Hd
                 |self distance bytes_read self' Hd Hread Hlen
                 |self distance bytes_read self' reads self'' Hd Hread Hlen
                    Hrest IH].
  - exists []. simpl. unfold len. simpl. repeat split; lia.
  - rewrite read_unfold in Hread. injection Hread as Hb Hself.
    apply len_nil_inv in Hlen. subst bytes_read self'. simpl.
    pose proof (read_next (reader self) distance Hd) as Hnext.
    rewrite Hlen in *. simpl in Hnext.
    exists []. simpl. split; [done|]. split; [unfold len; simpl; lia|].
    split; [unfold len; simpl; lia|]. intros _. split; [|done].
    rewrite <- Hnext.
    destruct (stream (reader self)) as [|b bs] eqn:Hs; [done|].
    exfalso. apply (read_some (reader self) distance Hd); [|done].
    by rewrite Hs.
  - rewrite read_unfold in Hread. injection Hread as Hb Hself.
    subst self'. simpl in IH.
    destruct IH as (eaten & Hs & Ho & Hle & Hend).
    pose proof (read_next (reader self) distance Hd) as Hnext.
    pose proof (read_at_most (reader self) distance Hd) as Hmost.
    rewrite Hb in *.
    exists (bytes_read ++ eaten). rewrite len_app.
    split; [by rewrite Hnext, Hs, app_assoc|].
    split; [rewrite Ho; lia|]. split; [lia|].
    intros Hshort. destruct Hend as [Hnil Hlast]; [lia|].
    split; [done|]. rewrite <- Hlast.
    destruct reads; [done|done].
Qed.

(** C8. A forward [seek] (absolute, or relative with [whence = 1])
    returns without raising.  It runs the read loop; when the stream
    has fewer bytes left than the distance asked for, the last read of
    the loop returned no byte, and [tell()] is at the end of the stream,
    short of the target; when the stream has enough bytes, [tell()] is
    exactly at the target. *)
Theorem seek_forward (self : BgzfWrapper R) target whence :
  whence = SEEK_SET \/ whence = SEEK_CUR ->
  let distance := if whence =? SEEK_SET then target - offset self
                  else target in
  let remaining := len (stream (reader self)) in
  0 <= distance ->
  exists self' reads,
    seek self target whence = (Returns tt, self') /\
    seek_while self distance reads self' /\
    (remaining < distance ->
       last reads = Some 0 /\
       stream (reader self') = [] /\
       tell self' = tell self + remaining /\
       tell self' < tell self + distance) /\
    (distance <= remaining -> tell self' = tell self + distance).
Proof.
  intros Hwhence distance remaining Hpos.
  destruct (seek_loop_seek_while (Z.to_nat distance) self distance)
    as [reads Hreads]; [lia|].
  exists (seek_loop (Z.to_nat distance) self distance), reads.
  split.
  - unfold seek. fold distance.
    assert ((whence =? SEEK_END) = false) as ->.
    { destruct Hwhence as [-> | ->]; reflexivity. }
    assert ((0 <=? distance) = true) as -> by by apply Z.leb_le.
    reflexivity.
  - split; [done|].
    destruct (seek_while_consumes _ _ _ _ Hreads)
      as (eaten & Hs & Ho & Hle & Hend).
    assert (remaining = len eaten +
              len (stream (reader (seek_loop (Z.to_nat distance) self distance))))
      as Hrem.
    { unfold remaining. by rewrite Hs, len_app. }
    pose proof (len_nonneg
      (stream (reader (seek_loop (Z.to_nat distance) self distance)))) as Hnn.
    unfold tell. split.
    + intros Hshort. destruct Hend as [Hnil Hlast]; [lia|].
      rewrite Hnil in Hrem. unfold len at 2 in Hrem. simpl in Hrem.
      repeat split; [done|done|lia|lia].
    + intros Henough.
      destruct (decide (len eaten < distance)) as [Hlt|Hge]; [|lia].
      destruct Hend as [Hnil _]; [done|].
      rewrite Hnil in Hrem. unfold len at 2 in Hrem. simpl in Hrem. lia.
Qed.
End Stream.

Section Monotone.
Context `{!MonotoneReader R}.

Lemma read_tell_mono (self : BgzfWrapper R) n :
  reader_tell (reader self) <= reader_tell (reader (read self n).2).
Proof. rewrite read_unfold. simpl. apply read_advances. Qed.

Lemma seek_loop_tell_mono fuel : forall (self : BgzfWrapper R) distance,
  reader_tell (reader self) <=
  reader_tell (reader (seek_loop fuel self distance)).
Proof.
  induction fuel as [|fuel IH]; intros self distance; simpl.
  - destruct (0 <? distance); lia.
  - destruct (0 <? distance); [|lia].
    pose proof (read_tell_mono self distance) as Hr.
    destruct (read self distance) as [bytes_read self']. simpl in Hr.
    destruct (len bytes_read =? 0); [done|].
    etrans; [exact Hr | apply IH].
Qed.

Lemma seek_tell_mono (self : BgzfWrapper R) target whence :
  reader_tell (reader self) <=
  reader_tell (reader (seek self target whence).2).
Proof.
  unfold seek. destruct (whence =? SEEK_END); simpl; [lia|].
  match goal with |- context [negb ?b] => destruct b end; simpl; [|lia].
  apply seek_loop_tell_mono.
Qed.
End Monotone.
End WrapperProperties.

Lemma mem_tell_mono a b :
  a <= b ->
  Z.shiftl (block_raw * (a / block_size)) 16 + a mod block_size <=
  Z.shiftl (block_raw * (b / block_size)) 16 + b mod block_size.
Proof.
  intros Hab. rewrite !Z.shiftl_mul_pow2 by lia.
  unfold block_raw, block_size.
  pose proof (Z.div_mod a 4 ltac:(lia)) as Ha.
  pose proof (Z.div_mod b 4 ltac:(lia)) as Hb.
  pose proof (Z.mod_pos_bound a 4 ltac:(lia)) as Hma.
  pose proof (Z.mod_pos_bound b 4 ltac:(lia)) as Hmb.
  change (2 ^ 16) with 65536. lia.
Qed.

#[export] Instance mem_reader_monotone : MonotoneReader MemReader.
Proof.
  constructor. intros r n. simpl. unfold mem_tell. simpl.
  apply mem_tell_mono. pose proof (len_nonneg (take (Z.to_nat n) (pending r))).
  lia.
Qed.

Lemma seek_rejects_end_and_backward_witness :
  seek wrapper_at_6 8 SEEK_END =
    (Raises (AssertionError whence_is_not_SEEK_END), wrapper_at_6) /\
  seek wrapper_at_6 5 SEEK_SET =
    (Raises (AssertionError distance_is_nonnegative), wrapper_at_6) /\
  seek wrapper_at_6 (-1) SEEK_CUR =
    (Raises (AssertionError distance_is_nonnegative), wrapper_at_6).
Proof.
  destruct (seek_rejects_end_and_backward wrapper_at_6) as (Hend & Hset & Hcur).
  split; [apply Hend|]. split; [apply Hset | apply Hcur]; vm_compute; reflexivity.
Defined.

Lemma seek_forward_witness :
  exists self' reads,
    seek wrapper_at_6 20 SEEK_SET = (Returns tt, self') /\
    seek_while wrapper_at_6 14 reads self' /\
    (4 < 14 ->
       last reads = Some 0 /\
       stream (reader self') = [] /\
       tell self' = 6 + 4 /\
       tell self' < 6 + 14) /\
    (14 <= 4 -> tell self' = 6 + 14).
Proof.
  pose proof (seek_forward wrapper_at_6 20 SEEK_SET (or_introl eq_refl)) as Hw.
  vm_compute in Hw. vm_compute. apply Hw. discriminate.
Defined.

(** ** Building the index *)

Lemma chained_consecutive entries : forall c (i : nat) e e',
  chained c entries ->
  entries !! i = Some e -> entries !! S i = Some e' ->
  virtual_offset e' = next_virtual_offset e.
Proof.
  induction entries as [|e0 entries IH]; intros c i e e' Hc Hi Hi'; [done|].
  destruct Hc as (_ & _ & Hc). destruct i as [|i]; simpl in *.
  - injection Hi as ->. destruct entries as [|e1 entries]; [done|].
    simpl in *. injection Hi' as ->. by destruct Hc.
  - eapply IH; eauto.
Qed.

Lemma chained_ordered entries : forall c e,
  chained c entries -> e ∈ entries ->
  virtual_offset e <= next_virtual_offset e.
Proof.
  induction entries as [|e0 entries IH]; intros c e Hc Hin.
  - by apply not_elem_of_nil in Hin.
  - destruct Hc as (Hv & Hle & Hc). apply elem_of_cons in Hin as [->|Hin].
    + lia.
    + eapply IH; eauto.
Qed.

Section BuildIndexProperties.
Context {R : Type} `{BgzfReader R} `{!MonotoneReader R}.

(** The loop invariant: the coordinate kept for the next entry is behind
    the reader, and what the loop adds to [created] is chained from it. *)
Lemma index_loop_chained depth archive_tar : forall st : IndexState R,
  bgzf_offset st <= reader_tell (reader (archive_wrapper st)) ->
  exists made,
    created (index_loop depth archive_tar st).2 = created st ++ made /\
    chained (bgzf_offset st) made.
Proof.
  induction archive_tar as [n k IH|pos k IH|k IH|info next k IH| |];
    intros st Hinv; simpl.
  - pose proof (read_tell_mono (archive_wrapper st) n) as Hr.
    destruct (read (archive_wrapper st) n) as [bytes_read w]. simpl in Hr.
    apply (IH bytes_read (with_wrapper st w)). simpl. lia.
  - pose proof (seek_tell_mono (archive_wrapper st) pos SEEK_SET) as Hs.
    destruct (seek (archive_wrapper st) pos SEEK_SET) as [[[]|ex] w];
      simpl in Hs.
    + apply (IH (with_wrapper st w)). simpl. lia.
    + exists []. simpl. by rewrite app_nil_r.
  - by apply IH.
  - pose proof (seek_tell_mono (archive_wrapper st) next SEEK_SET) as Hs.
    destruct (seek (archive_wrapper st) next SEEK_SET) as [[[]|ex] w];
      simpl in Hs.
    + set (e := mkIndexEntry (bgzf_offset st) (tar_offset st)
                  (info_size info) (reader_tell (reader w))).
      destruct (insert depth (index st) (info_name info) e) as [index'|ex].
      * destruct (IH (mkIndexState w (reader_tell (reader w)) (tell w)
                        index' (created st ++ [e]))) as (made & Hmade & Hc);
          [simpl; lia|].
        exists (e :: made). split.
        -- rewrite Hmade. simpl. by rewrite <- app_assoc.
        -- simpl. split; [done|]. split; [lia|]. exact Hc.
      * exists [e]. simpl. split; [done|]. split; [done|]. split; [lia|done].
    + exists []. simpl. by rewrite app_nil_r.
  - exists []. simpl. by rewrite app_nil_r.
  - exists []. simpl. by rewrite app_nil_r.
Qed.

(** C1. The entries made by the build loop, in the order they are made,
    are chained: each entry starts at the coordinate where the one
    before it ends; no entry ends before it starts (the reader's virtual
    offset never going down when read); and the first entry starts at
    the coordinate the reader was at before the archive was parsed.
    This holds of every run of the loop, also of one that a failed seek,
    a failed insertion or a parse error cuts short. *)
Theorem index_entries_chained depth (archive_bgzf : R) archive_tar :
  let entries := created (main_index depth archive_bgzf archive_tar).2 in
  (forall (i : nat) e e',
     entries !! i = Some e -> entries !! S i = Some e' ->
     virtual_offset e' = next_virtual_offset e) /\
  (forall e, e ∈ entries ->
     virtual_offset e <= next_virtual_offset e) /\
  (forall e, entries !! 0%nat = Some e ->
     virtual_offset e = reader_tell archive_bgzf).
Proof.
  intros entries. subst entries. unfold main_index.
  destruct (index_loop_chained depth archive_tar
              (mkIndexState (new_wrapper archive_bgzf 0)
                 (reader_tell archive_bgzf)
                 (tell (new_wrapper archive_bgzf 0)) new_index []))
    as (made & Hmade & Hc); [simpl; lia|].
  rewrite Hmade. simpl in *. split; [|split].
  - intros i e e'. by apply chained_consecutive with (c := reader_tell archive_bgzf).
  - intros e. by apply chained_ordered with (c := reader_tell archive_bgzf).
  - intros e He. destruct made as [|e0 made]; [done|].
    simpl in He. injection He as ->. by destruct Hc.
Qed.
End BuildIndexProperties.

Lemma index_entries_chained_witness :
  let entries := created (main_index 8 (mem_open ten_bytes) two_members).2 in
  entries = [mkIndexEntry 0 0 1 3; mkIndexEntry 3 3 4 393217] /\
  (forall (i : nat) e e',
     entries !! i = Some e -> entries !! S i = Some e' ->
     virtual_offset e' = next_virtual_offset e) /\
  (forall e, e ∈ entries -> virtual_offset e <= next_virtual_offset e) /\
  (forall e, entries !! 0%nat = Some e ->
     virtual_offset e = reader_tell (mem_open ten_bytes)).
Proof.
  split; [vm_compute; reflexivity|].
  exact (index_entries_chained 8 (mem_open ten_bytes) two_members).
Defined.

(** ** Splitting paths *)

(** [os.path.split] and [os.path.join] on some paths. *)
Example os_path_split_examples :
  os_path_split "dir/b" = ("dir", "b") /\
  os_path_split "dir//b" = ("dir", "b") /\
  os_path_split "dir/" = ("dir", "") /\
  os_path_split "b" = ("", "b") /\
  os_path_split "" = ("", "") /\
  os_path_split "/b" = ("/", "b") /\
  os_path_split "/" = ("/", "") /\
  os_path_split "//" = ("//", "").
Proof. repeat split. Qed.

Example os_path_join_examples :
  os_path_join "" "b" = "b" /\
  os_path_join "dir" "b" = "dir/b" /\
  os_path_join "dir/" "b" = "dir/b" /\
  os_path_join "dir" "/b" = "/b".
Proof. repeat split. Qed.

#[local] Arguments String.append !_ _ /.

Lemma append_empty_r p : p +:+ "" = p.
Proof. induction p as [|c p IH]; simpl; [done | by rewrite IH]. Qed.

Lemma append_assoc p q r : (p +:+ q) +:+ r = p +:+ (q +:+ r).
Proof. induction p as [|c p IH]; simpl; [done | by rewrite IH]. Qed.

Lemma length_append p q :
  String.length (p +:+ q) = (String.length p + String.length q)%nat.
Proof. induction p as [|c p IH]; simpl; [done | by rewrite IH]. Qed.

Lemma is_empty_true p : is_empty p = true <-> p = "".
Proof. destruct p; simpl; split; congruence. Qed.

Lemma is_empty_false p : is_empty p = false <-> p <> "".
Proof. destruct p; simpl; split; congruence. Qed.

(** Every path is free of slashes or has a last slash. *)
Lemma last_slash p :
  no_slash p = true \/
  exists h t, p = h +:+ String "/" t /\ no_slash t = true.
Proof.
  induction p as [|c p IH]; [by left|].
  destruct IH as [Hfree | (h & t & -> & Ht)].
  - simpl. destruct (is_slash c) eqn:Hc.
    + right. exists "", p. split; [|done]. simpl.
      apply Ascii.eqb_eq in Hc. by rewrite Hc.
    + by left.
  - right. exists (String c h), t. by split.
Qed.

Lemma rfind_slash_succ_no_slash t :
  no_slash t = true -> rfind_slash_succ t = 0%nat.
Proof.
  induction t as [|c t IH]; simpl; [done|].
  intros [Hc Ht]%andb_prop. rewrite (IH Ht).
  by destruct (is_slash c).
Qed.

Lemma rfind_slash_succ_append h t :
  no_slash t = true ->
  rfind_slash_succ (h +:+ String "/" t) = S (String.length h).
Proof.
  intros Ht. induction h as [|c h IH]; simpl.
  - by rewrite (rfind_slash_succ_no_slash t Ht).
  - by rewrite IH.
Qed.

Lemma str_take_append h q : str_take (String.length h) (h +:+ q) = h.
Proof. induction h as [|c h IH]; simpl; [by destruct q | by rewrite IH]. Qed.

Lemma str_drop_append h q : str_drop (String.length h) (h +:+ q) = q.
Proof. induction h as [|c h IH]; simpl; [by destruct q | done]. Qed.

Lemma all_slashes_append h q :
  all_slashes (h +:+ q) = all_slashes h && all_slashes q.
Proof.
  induction h as [|c h IH]; simpl; [done|].
  rewrite IH. by rewrite andb_assoc.
Qed.

Lemma rstrip_slash_empty p : rstrip_slash p = "" <-> all_slashes p = true.
Proof.
  induction p as [|c p IH]; simpl; [done|].
  destruct (rstrip_slash p) as [|c' r] eqn:Hr.
  - destruct IH as [IH _]. rewrite (IH eq_refl), andb_true_r.
    by destruct (is_slash c).
  - split; [done|]. intros [_ Hp]%andb_prop. by apply IH in Hp.
Qed.

Lemma rstrip_slash_append_slash h : rstrip_slash (h +:+ "/") = rstrip_slash h.
Proof.
  induction h as [|c h IH]; simpl; [done|]. by rewrite IH.
Qed.

Lemma rstrip_slash_keeps p : endswith_slash p = false -> rstrip_slash p = p.
Proof.
  induction p as [|c p IH]; [done|].
  destruct p as [|c' p].
  - simpl. intros ->. done.
  - intros Hend. change (endswith_slash (String c' p) = false) in Hend.
    change (rstrip_slash (String c (String c' p)))
      with (match rstrip_slash (String c' p) with
            | "" => if is_slash c then "" else String c ""
            | r => String c r
            end).
    by rewrite (IH Hend).
Qed.

Lemma endswith_slash_true p :
  endswith_slash p = true -> exists h, p = h +:+ "/".
Proof.
  induction p as [|c p IH]; [done|].
  destruct p as [|c' p].
  - simpl. intros Hc%Ascii.eqb_eq. subst c. by exists "".
  - intros Hend. change (endswith_slash (String c' p) = true) in Hend.
    destruct (IH Hend) as [h Hh]. exists (String c h). simpl. by rewrite Hh.
Qed.

Lemma length_rstrip_slash p :
  (String.length (rstrip_slash p) <= String.length p)%nat.
Proof.
  induction p as [|c p IH]; simpl; [done|].
  destruct (rstrip_slash p); [destruct (is_slash c)|]; simpl in *; lia.
Qed.

Lemma startswith_slash_rstrip p :
  startswith_slash p = false -> startswith_slash (rstrip_slash p) = false.
Proof.
  destruct p as [|c p]; simpl; [done|]. intros Hc.
  destruct (rstrip_slash p); [by rewrite Hc|done].
Qed.

Lemma startswith_slash_all_slashes p :
  startswith_slash p = false -> p <> "" -> all_slashes p = false.
Proof. destruct p as [|c p]; simpl; [done|]. by intros ->. Qed.

(** [os.path.split] at a path without a slash, and at a path with one. *)
Lemma os_path_split_no_slash t :
  no_slash t = true -> os_path_split t = ("", t).
Proof.
  intros Ht. unfold os_path_split.
  rewrite (rfind_slash_succ_no_slash t Ht). by destruct t.
Qed.

Lemma os_path_split_last_slash h t :
  no_slash t = true ->
  os_path_split (h +:+ String "/" t) =
  (if all_slashes h then h +:+ "/" else rstrip_slash h, t).
Proof.
  intros Ht. unfold os_path_split.
  rewrite (rfind_slash_succ_append h t Ht).
  replace (S (String.length h)) with (String.length (h +:+ "/"))
    by (rewrite length_append; simpl; lia).
  change (h +:+ String "/" t) with (h +:+ "/" +:+ t).
  rewrite <- append_assoc, str_take_append, str_drop_append.
  rewrite all_slashes_append. simpl. rewrite andb_true_r.
  assert (is_empty (h +:+ "/") = false) as -> by by destruct h.
  simpl. destruct (all_slashes h); simpl; [done|].
  by rewrite rstrip_slash_append_slash.
Qed.

#[local] Opaque os_path_split.

(** The pieces of a path. *)
Lemma split_slash_not_nil p : split_slash p <> [].
Proof.
  destruct p as [|c p]; simpl; [done|].
  destruct (is_slash c); [done|]. by destruct (split_slash p).
Qed.

Lemma split_slash_append a b :
  split_slash (a +:+ String "/" b) = split_slash a ++ split_slash b.
Proof.
  induction a as [|c a IH]; simpl; [done|].
  rewrite IH. destruct (is_slash c); [done|].
  pose proof (split_slash_not_nil a). by destruct (split_slash a).
Qed.

Lemma split_slash_no_slash t : no_slash t = true -> split_slash t = [t].
Proof.
  induction t as [|c t IH]; simpl; [done|].
  intros [Hc Ht]%andb_prop. rewrite (IH Ht).
  by destruct (is_slash c).
Qed.

Lemma components_append a b :
  components (a +:+ String "/" b) = components a ++ components b.
Proof. unfold components. by rewrite split_slash_append, List.filter_app. Qed.

Lemma components_no_slash t :
  no_slash t = true ->
  components t = if negb (is_empty t) then [t] else [].
Proof.
  intros Ht. unfold components. rewrite (split_slash_no_slash t Ht). done.
Qed.

Lemma components_all_slashes q : all_slashes q = true -> components q = [].
Proof.
  induction q as [|c q IH]; [done|]. simpl.
  intros [Hc Hq]%andb_prop. unfold components in *. simpl.
  rewrite Hc. simpl. by apply IH.
Qed.

Lemma rstrip_slash_rest p :
  exists q, all_slashes q = true /\ p = rstrip_slash p +:+ q.
Proof.
  induction p as [|c p (q & Hq & Hp)]; [by exists ""|].
  simpl. destruct (rstrip_slash p) as [|c' r] eqn:Hr.
  - simpl in Hp. subst q. destruct (is_slash c) eqn:Hc.
    + exists (String c p). simpl. by rewrite Hc, Hq.
    + exists p. by split.
  - exists q. split; [done|]. simpl in *. by rewrite <- Hp.
Qed.

Lemma components_append_slashes a q :
  all_slashes q = true -> components (a +:+ q) = components a.
Proof.
  destruct q as [|c q]; [by rewrite append_empty_r|].
  simpl. intros [Hc%Ascii.eqb_eq Hq]%andb_prop. subst c.
  change (a +:+ String "/" q) with (a +:+ String "/" q).
  rewrite components_append, (components_all_slashes q Hq).
  by rewrite app_nil_r.
Qed.

Lemma components_rstrip_slash p : components (rstrip_slash p) = components p.
Proof.
  destruct (rstrip_slash_rest p) as (q & Hq & Hp).
  rewrite Hp at 2. by rewrite components_append_slashes.
Qed.

(** *** [atomize_path] *)

Lemma atomize_path_S depth path :
  atomize_path (S depth) path =
  (parts <- (if negb (is_empty (os_path_split path).1)
             then atomize_path depth (os_path_split path).1
             else Returns []) ;;
   Returns (if negb (is_empty (os_path_split path).2)
            then parts ++ [(os_path_split path).2] else parts)).
Proof. cbn [atomize_path]. by destruct (os_path_split path). Qed.

#[local] Arguments atomize_path : simpl never.

Lemma atomize_path_mono depth : forall depth' path parts,
  atomize_path depth path = Returns parts ->
  (depth <= depth')%nat ->
  atomize_path depth' path = Returns parts.
Proof.
  induction depth as [|depth IH]; intros depth' path parts; [done|].
  intros Hparts Hle. destruct depth' as [|depth']; [lia|].
  rewrite atomize_path_S in *.
  destruct (os_path_split path) as [head tail]. simpl in *.
  destruct (is_empty head); simpl in *; [done|].
  destruct (atomize_path depth head) as [parts0|] eqn:Hhead; [|done].
  by rewrite (IH depth' head parts0 Hhead) by lia.
Qed.

Lemma os_path_split_absolute p :
  startswith_slash p = true -> startswith_slash (os_path_split p).1 = true.
Proof.
  intros Hp. destruct (last_slash p) as [Hfree | (h & t & -> & Ht)].
  - destruct p as [|c p]; [done|]. simpl in *. by rewrite Hp in Hfree.
  - rewrite (os_path_split_last_slash h t Ht). simpl.
    destruct (all_slashes h) eqn:Hall.
    + by destruct h.
    + destruct h as [|c h]; [done|]. simpl in Hp.
      assert (rstrip_slash (String c h) <> "") as Hne.
      { rewrite rstrip_slash_empty. by rewrite Hall. }
      simpl in *. destruct (rstrip_slash h); [|done].
      by rewrite Hp in *.
Qed.

(** A path that begins with a slash is never split: the recursion is on a
    head that begins with a slash again. *)
Lemma atomize_path_absolute depth : forall path,
  startswith_slash path = true ->
  atomize_path depth path = Raises RuntimeError_recursion_depth.
Proof.
  induction depth as [|depth IH]; intros path Hpath; [done|].
  rewrite atomize_path_S.
  pose proof (os_path_split_absolute path Hpath) as Hhead.
  destruct (os_path_split path) as [head tail]. simpl in *.
  destruct head as [|c head]; [done|]. simpl.
  by rewrite (IH (String c head) Hhead).
Qed.

(** Any other path is split into its components, one stack frame per
    slash at most. *)
Lemma atomize_path_relative depth : forall path,
  startswith_slash path = false ->
  (String.length path < depth)%nat ->
  atomize_path depth path = Returns (components path).
Proof.
  induction depth as [|depth IH]; intros path Hrel Hlen; [lia|].
  rewrite atomize_path_S.
  destruct (last_slash path) as [Hfree | (h & t & -> & Ht)].
  - rewrite (os_path_split_no_slash path Hfree). simpl.
    rewrite (components_no_slash path Hfree). by destruct (is_empty path).
  - rewrite (os_path_split_last_slash h t Ht).
    assert (h <> "") as Hh by (by intros ->).
    assert (startswith_slash h = false) as Hrelh by (by destruct h).
    rewrite (startswith_slash_all_slashes h Hrelh Hh). simpl.
    assert (is_empty (rstrip_slash h) = false) as ->.
    { apply is_empty_false. rewrite rstrip_slash_empty.
      by rewrite (startswith_slash_all_slashes h Hrelh Hh). }
    simpl. rewrite IH.
    + simpl. rewrite components_append, components_rstrip_slash.
      rewrite (components_no_slash t Ht).
      destruct (is_empty t); simpl; [by rewrite app_nil_r | done].
    + by apply startswith_slash_rstrip.
    + pose proof (length_rstrip_slash h). rewrite length_append in Hlen.
      simpl in Hlen. lia.
Qed.

(** C6. [atomize_path] does not split a path that begins with a slash:
    [os.path.split("/")] is [("/", "")], so the recursion on the head never
    reaches the empty head, and the call ends in the [RuntimeError] of the
    exhausted stack whatever the depth available.  The paths ["a/b"],
    ["a//b"] and ["a/b/"] are split into [["a"; "b"]] as soon as three
    frames are available. *)
Theorem atomize_path_leading_slash_raises depth :
  atomize_path depth "/a/b" = Raises RuntimeError_recursion_depth /\
  atomize_path (3 + depth) "a/b" = Returns ["a"; "b"] /\
  atomize_path (3 + depth) "a//b" = Returns ["a"; "b"] /\
  atomize_path (3 + depth) "a/b/" = Returns ["a"; "b"].
Proof.
  split; [by apply atomize_path_absolute|].
  repeat split;
    (apply atomize_path_mono with (depth := 3%nat);
     [vm_compute; reflexivity | lia]).
Qed.

(** C3. [get] raises on a path that begins with a slash: the
    [RuntimeError] of [atomize_path] leaves [get] before the walk starts,
    whatever the index holds. *)
Theorem get_leading_slash_raises depth idx :
  get depth idx "/a" = Raises RuntimeError_recursion_depth.
Proof. unfold get. by rewrite atomize_path_absolute. Qed.

(** C4. [readdir] on ["/"] neither lists the root nor reports a missing
    component: it ends in the [RuntimeError] of [atomize_path]. *)
Theorem readdir_leading_slash_raises depth idx :
  readdir depth idx "/" = Raises RuntimeError_recursion_depth.
Proof. unfold readdir. by rewrite atomize_path_absolute. Qed.

(** *** Lookup and listing at the other paths *)

(** [get] returns the entry of the node the components lead to, and
    [None] when a component is missing or the node has no entry. *)
Lemma get_relative depth idx path :
  startswith_slash path = false ->
  (String.length path < depth)%nat ->
  get depth idx path =
  Returns (match node_at (root idx) (components path) with
           | Some m => entry m
           | None => None
           end).
Proof.
  intros Hrel Hlen. unfold get.
  rewrite (atomize_path_relative depth path Hrel Hlen). simpl.
  apply get_walk_node_at.
Qed.

(** [readdir] raises "not found" for the first component that is missing,
    and otherwise returns the names of the children of the node the
    components lead to, each once. *)
Lemma readdir_relative depth idx path :
  startswith_slash path = false ->
  (String.length path < depth)%nat ->
  match node_at (root idx) (components path) with
  | Some m =>
      readdir depth idx path = Returns (get_children m) /\
      NoDup (get_children m) /\
      forall name, name ∈ get_children m <-> is_Some (children m !! name)
  | None =>
      exists part, part ∈ components path /\
        first_absent (root idx) (components path) = Some part /\
        readdir depth idx path = Raises (RuntimeError_not_found part)
  end.
Proof.
  intros Hrel Hlen. unfold readdir.
  rewrite (atomize_path_relative depth path Hrel Hlen). simpl.
  rewrite readdir_walk_node_at.
  destruct (node_at (root idx) (components path)) as [m|] eqn:Hm.
  - assert (first_absent (root idx) (components path) = None) as ->.
    { apply first_absent_node_at. rewrite Hm. eauto. }
    split; [done|]. split; [apply NoDup_get_children|].
    apply elem_of_get_children.
  - destruct (first_absent (root idx) (components path)) as [part|] eqn:Hf.
    + exists part. split; [by eapply first_absent_elem|done].
    + apply first_absent_node_at in Hf. rewrite Hm in Hf. by destruct Hf.
Qed.

(** ** Listing a directory *)

Lemma is_component_inv name :
  is_component name = true ->
  name <> "" /\ no_slash name = true /\ startswith_slash name = false.
Proof.
  unfold is_component. intros [Hne Hfree]%andb_prop.
  destruct name as [|c name]; [done|]. simpl in *.
  split; [done|]. split; [done|].
  apply andb_prop in Hfree as [Hc _]. by destruct (is_slash c).
Qed.

(** The components of [os.path.join(find, name)]. *)
Lemma atomize_path_join depth find parts name :
  atomize_path depth find = Returns parts ->
  is_component name = true ->
  atomize_path (S depth) (os_path_join find name) = Returns (parts ++ [name]).
Proof.
  intros Hparts (Hne & Hfree & Hrel)%is_component_inv.
  assert (is_empty name = false) as Hn by by apply is_empty_false.
  assert (startswith_slash find = false) as Hfind.
  { destruct (startswith_slash find) eqn:Ha; [|done].
    by rewrite (atomize_path_absolute depth find Ha) in Hparts. }
  unfold os_path_join. rewrite Hrel, atomize_path_S.
  destruct find as [|c find].
  - simpl. rewrite (os_path_split_no_slash name Hfree). simpl. rewrite Hn.
    destruct depth; [done|]. by injection Hparts as <-.
  - cbn [is_empty orb].
    assert (all_slashes (String c find) = false) as Hall
      by by apply startswith_slash_all_slashes.
    destruct (endswith_slash (String c find)) eqn:Hend.
    + apply endswith_slash_true in Hend as [h Hh]. rewrite Hh in *.
      rewrite all_slashes_append in Hall. simpl in Hall.
      rewrite andb_true_r in Hall.
      rewrite append_assoc. simpl.
      rewrite (os_path_split_last_slash h name Hfree), Hall. simpl.
      destruct depth as [|depth]; [done|].
      rewrite atomize_path_S in Hparts.
      change (h +:+ "/") with (h +:+ String "/" "") in Hparts.
      rewrite (os_path_split_last_slash h "" eq_refl), Hall in Hparts.
      simpl in Hparts.
      assert (is_empty (rstrip_slash h) = false) as Hr.
      { apply is_empty_false. rewrite rstrip_slash_empty. by rewrite Hall. }
      rewrite Hr in *. simpl in *.
      destruct (atomize_path depth (rstrip_slash h)) as [parts0|] eqn:Hh0;
        [|done].
      simpl in Hparts. injection Hparts as <-.
      rewrite (atomize_path_mono depth (S depth) _ _ Hh0) by lia.
      simpl. by rewrite Hn.
    + change (String c find +:+ "/" +:+ name)
        with (String c find +:+ String "/" name).
      rewrite (os_path_split_last_slash (String c find) name Hfree), Hall.
      rewrite (rstrip_slash_keeps _ Hend). simpl.
      rewrite Hparts. simpl. by rewrite Hn.
Qed.

Lemma node_at_app parts : forall n m name,
  node_at n parts = Some m ->
  node_at n (parts ++ [name]) = children m !! name.
Proof.
  induction parts as [|part parts IH]; intros n m name; simpl.
  - intros [= <-]. by destruct (children n !! name).
  - destruct (children n !! part) as [child|]; [apply IH | done].
Qed.

Lemma find_loop_lines depth idx find parts m names :
  atomize_path depth find = Returns parts ->
  node_at (root idx) parts = Some m ->
  (forall name, name ∈ names -> is_component name = true) ->
  find_loop (S depth) idx find names =
  (Returns tt,
   (fun name => (os_path_join find name, printed_size (children m !! name)))
     <$> names).
Proof.
  intros Hparts Hm. induction names as [|name names IH]; intros Hnames;
    [done|].
  cbn [find_loop]. unfold get at 1.
  rewrite (atomize_path_join depth find parts name Hparts)
    by (apply Hnames; left).
  simpl. rewrite get_walk_node_at, (node_at_app parts _ m name Hm).
  rewrite IH by (intros name' Hin; apply Hnames; by right).
  simpl. unfold printed_size. by destruct (children m !! name).
Qed.

Lemma forallb_get_children (P : string -> bool) m :
  forallb P (get_children m) = true <->
  forall name, is_Some (children m !! name) -> P name = true.
Proof.
  rewrite forallb_forall. split.
  - intros Hall name Hname. apply Hall, list_elem_of_In.
    by apply elem_of_get_children.
  - intros Hall name Hin. apply Hall, elem_of_get_children.
    by apply list_elem_of_In.
Qed.

(** C9, as stated, fails.  In the index of [a], [dir/b] and [dir/c], the
    directory [dir] has no entry of its own, and the listing of the root
    prints the size 0 for it; the listing of [dir] prints [dir/c], not [c],
    with the 5000 bytes of that member. *)
Lemma main_find_prints_zero_and_full_names :
  ~ lists_names_and_sizes (root index_abc) (main_find 8 index_abc "").2 /\
  ~ lists_names_and_sizes node_dir (main_find 8 index_abc "dir").2.
Proof.
  split; intros Hclaim.
  - destruct (children (root index_abc) !! "dir") as [child|] eqn:Hchild;
      [|vm_compute in Hchild; discriminate].
    specialize (Hclaim "dir" child Hchild).
    assert (entry child = None) as He.
    { vm_compute in Hchild. by injection Hchild as <-. }
    rewrite He in Hclaim. apply (Hclaim 0).
    assert ((main_find 8 index_abc "").2 = [("a", 10); ("dir", 0)]) as ->
      by (vm_compute; reflexivity).
    right. left.
  - destruct (children node_dir !! "c") as [child|] eqn:Hchild;
      [|vm_compute in Hchild; discriminate].
    specialize (Hclaim "c" child Hchild).
    assert (entry child = Some entry_c) as He.
    { vm_compute in Hchild. by injection Hchild as <-. }
    rewrite He in Hclaim.
    assert ((main_find 8 index_abc "dir").2 = [("dir/c", 5000); ("dir/b", 0)])
      as Hprinted by (vm_compute; reflexivity).
    rewrite Hprinted in Hclaim.
    apply elem_of_cons in Hclaim as [[=]|Hclaim].
    apply elem_of_cons in Hclaim as [[=]|Hclaim].
    by apply not_elem_of_nil in Hclaim.
Qed.

(** C9, amended.  For a directory path [find] that [atomize_path] splits
    into components leading to a node [m] whose children are named by
    single components, the listing succeeds and prints one line for each
    child of [m], in the order [readdir] yields them: the child's name
    joined to [find] by [os.path.join], with the size of the child's entry
    when it has one and 0 when it has none. *)
Theorem main_find_lines depth idx find parts m :
  atomize_path depth find = Returns parts ->
  node_at (root idx) parts = Some m ->
  forallb is_component (get_children m) = true ->
  main_find (S depth) idx find =
  (Returns tt,
   (fun name => (os_path_join find name, printed_size (children m !! name)))
     <$> get_children m) /\
  forall name child, children m !! name = Some child ->
    (os_path_join find name,
     match entry child with Some e => size e | None => 0 end)
    ∈ (main_find (S depth) idx find).2.
Proof.
  intros Hparts Hm Hnames.
  assert (main_find (S depth) idx find =
    (Returns tt,
     (fun name => (os_path_join find name, printed_size (children m !! name)))
       <$> get_children m)) as Hlines.
  { unfold main_find, readdir.
    rewrite (atomize_path_mono depth (S depth) find parts Hparts) by lia.
    simpl. rewrite readdir_walk_node_at.
    assert (first_absent (root idx) parts = None) as ->.
    { apply first_absent_node_at. rewrite Hm. eauto. }
    rewrite Hm. apply (find_loop_lines depth idx find parts m); [done|done|].
    intros name Hin. apply (forallb_get_children is_component m); [done|].
    by apply elem_of_get_children. }
  split; [done|]. intros name child Hchild. rewrite Hlines. simpl.
  apply list_elem_of_fmap. exists name. split.
  - unfold printed_size. by rewrite Hchild.
  - apply elem_of_get_children. rewrite Hchild. eauto.
Qed.

Lemma main_find_lines_witness :
  main_find 8 index_abc "dir" =
  (Returns tt,
   (fun name => (os_path_join "dir" name,
                 printed_size (children node_dir !! name)))
     <$> get_children node_dir) /\
  forall name child, children node_dir !! name = Some child ->
    (os_path_join "dir" name,
     match entry child with Some e => size e | None => 0 end)
    ∈ (main_find 8 index_abc "dir").2.
Proof.
  apply (main_find_lines 7 index_abc "dir" ["dir"] node_dir);
    vm_compute; reflexivity.
Defined.

(** ** Indexes made by insertion *)

Lemma os_path_split_tail_no_slash p : no_slash (os_path_split p).2 = true.
Proof.
  destruct (last_slash p) as [Hfree | (h & t & -> & Ht)].
  - by rewrite (os_path_split_no_slash p Hfree).
  - by rewrite (os_path_split_last_slash h t Ht).
Qed.

(** What [atomize_path] returns are components, one stack frame each at
    least. *)
Lemma atomize_path_components depth : forall path parts,
  atomize_path depth path = Returns parts ->
  Forall (fun name => is_component name = true) parts /\
  (length parts <= depth)%nat.
Proof.
  induction depth as [|depth IH]; intros path parts; [done|].
  rewrite atomize_path_S.
  pose proof (os_path_split_tail_no_slash path) as Htail.
  destruct (os_path_split path) as [head tail]. simpl in *.
  destruct (is_empty head); simpl.
  - destruct (is_empty tail) eqn:Ht; simpl; intros [= <-].
    + split; [constructor | simpl; lia].
    + split; [|simpl; lia]. constructor; [|constructor].
      unfold is_component. by rewrite Ht, Htail.
  - destruct (atomize_path depth head) as [parts0|] eqn:Hhead; [|done].
    destruct (IH head parts0 Hhead) as [Hall Hlen]. simpl.
    destruct (is_empty tail) eqn:Ht; simpl; intros [= <-].
    + split; [done | lia].
    + split.
      * apply Forall_app. split; [done|]. constructor; [|constructor].
        unfold is_component. by rewrite Ht, Htail.
      * rewrite length_app. simpl. lia.
Qed.

Lemma atomize_path_join_components parts :
  Forall (fun name => is_component name = true) parts ->
  atomize_path (S (length parts)) (join_components parts) = Returns parts.
Proof.
  induction parts as [|name parts IH] using rev_ind; intros Hall; [done|].
  apply Forall_app in Hall as [Hparts Hname].
  unfold join_components. rewrite fold_left_app. simpl.
  rewrite length_app. simpl.
  replace (length parts + 1)%nat with (S (length parts)) by lia.
  apply atomize_path_join; [by apply IH|]. by inversion Hname.
Qed.

(** Whatever [atomize_path] returns for a path is the list of the path's
    non-empty slash-delimited pieces. *)
Lemma atomize_path_returns_components depth path parts :
  atomize_path depth path = Returns parts ->
  startswith_slash path = false /\ parts = components path.
Proof.
  intros Hparts.
  assert (startswith_slash path = false) as Hrel.
  { destruct (startswith_slash path) eqn:Habs; [|done].
    by rewrite (atomize_path_absolute depth path Habs) in Hparts. }
  split; [done|].
  pose proof (atomize_path_mono depth (depth + S (String.length path)) path
                parts Hparts ltac:(lia)) as Hmore.
  rewrite (atomize_path_relative _ path Hrel) in Hmore by lia.
  by injection Hmore as <-.
Qed.

(** C5. After [insert(path, entry)], every proper prefix of the inserted
    path's component list names a directory whose listing contains the
    component that follows it.  The component list is [components path],
    the non-empty slash-delimited pieces of [path], and it is what
    [atomize_path] returned to [insert].  For every split
    [components path = pre ++ c :: rest]: the prefix [pre] is named by a
    path, [join_components pre] for one, whose listing in the index after
    the insertion returns names among which is [c]; and so does the
    listing of every other path [dir] that splits into [pre]. *)
Theorem insert_lists_next_component depth idx path e idx' :
  insert depth idx path e = Returns idx' ->
  atomize_path depth path = Returns (components path) /\
  forall pre c rest,
    components path = pre ++ c :: rest ->
    atomize_path depth (join_components pre) = Returns pre /\
    (exists names,
       readdir depth idx' (join_components pre) = Returns names /\
       c ∈ names) /\
    forall dir,
      atomize_path depth dir = Returns pre ->
      exists names, readdir depth idx' dir = Returns names /\ c ∈ names.
Proof.
  intros Hi. apply insert_inv in Hi as (parts & Hparts & ->).
  destruct (atomize_path_returns_components depth path parts Hparts)
    as [_ ->].
  split; [done|]. intros pre c rest Hsplit.
  destruct (atomize_path_components depth path _ Hparts) as [Hall Hlen].
  assert (atomize_path depth (join_components pre) = Returns pre) as Hjoin.
  { rewrite Hsplit in Hall, Hlen. apply Forall_app in Hall as [Hpre _].
    apply atomize_path_mono with (depth := S (length pre)).
    - by apply atomize_path_join_components.
    - rewrite length_app in Hlen. simpl in Hlen. lia. }
  assert (forall dir,
    atomize_path depth dir = Returns pre ->
    exists names,
      readdir depth (mkIndex (insert_at (root idx) (components path) e)) dir
        = Returns names /\ c ∈ names) as Hlist.
  { intros dir Hdir.
    destruct (node_at_insert_at_prefix (components path) (root idx) e
                pre c rest Hsplit) as (m & Hm & Hc).
    exists (get_children m). split.
    - unfold readdir. rewrite Hdir. simpl. rewrite readdir_walk_node_at.
      assert (first_absent (insert_at (root idx) (components path) e) pre
              = None) as ->.
      { apply first_absent_node_at. rewrite Hm. eauto. }
      by rewrite Hm.
    - by apply elem_of_get_children. }
  split; [done|]. split; [by apply Hlist | done].
Qed.

Lemma insert_lists_next_component_witness :
  components "dir/b" = ["dir"; "b"] /\
  atomize_path 8 "dir/b" = Returns ["dir"; "b"] /\
  (exists names, readdir 8 index_b "" = Returns names /\ "dir" ∈ names) /\
  (exists names, readdir 8 index_b "dir" = Returns names /\ "b" ∈ names) /\
  (exists names, readdir 8 index_b "dir/" = Returns names /\ "b" ∈ names).
Proof.
  destruct (insert_lists_next_component 8 new_index "dir/b" entry_b index_b)
    as [Hparts Hlist]; [vm_compute; reflexivity|].
  assert (components "dir/b" = ["dir"; "b"]) as Hcomponents
    by (vm_compute; reflexivity).
  split; [exact Hcomponents|]. split; [by rewrite <- Hcomponents|].
  destruct (Hlist [] "dir" ["b"] Hcomponents) as (_ & Hroot & _).
  destruct (Hlist ["dir"] "b" [] Hcomponents) as (_ & Hdir & Hother).
  split; [exact Hroot|]. split; [exact Hdir|].
  apply (Hother "dir/"). vm_compute; reflexivity.
Defined.

Lemma names_are_components_child n part child :
  names_are_components n -> children n !! part = Some child ->
  names_are_components child.
Proof.
  intros Hn Hchild q m name Hq. apply (Hn (part :: q)). simpl.
  by rewrite Hchild.
Qed.

Lemma names_are_components_new_node : names_are_components new_node.
Proof.
  intros q m name Hq [child Hchild]. destruct q as [|c q]; simpl in Hq.
  - injection Hq as <-. simpl in Hchild. by rewrite lookup_empty in Hchild.
  - by rewrite lookup_empty in Hq.
Qed.

Lemma names_are_components_insert_at parts : forall n e,
  Forall (fun name => is_component name = true) parts ->
  names_are_components n ->
  names_are_components (insert_at n parts e).
Proof.
  induction parts as [|part parts IH]; intros n e Hparts Hn.
  - intros q m name Hq Hname. destruct q as [|c q]; simpl in Hq.
    + injection Hq as <-. by apply (Hn [] n name).
    + by apply (Hn (c :: q) m name).
  - apply Forall_cons in Hparts as [Hpart Hparts].
    assert (names_are_components (default new_node (children n !! part)))
      as Hchild.
    { destruct (children n !! part) as [child|] eqn:E; simpl.
      - by eapply names_are_components_child.
      - apply names_are_components_new_node. }
    intros q m name Hq Hname. destruct q as [|c q]; simpl in Hq.
    + injection Hq as <-. simpl in Hname.
      destruct (decide (part = name)) as [<-|Hne]; [done|].
      rewrite lookup_insert_ne in Hname by done. by apply (Hn [] n name).
    + destruct (decide (part = c)) as [<-|Hne].
      * rewrite lookup_insert_eq in Hq.
        by apply (IH _ e Hparts Hchild q m name).
      * rewrite lookup_insert_ne in Hq by done.
        by apply (Hn (c :: q) m name).
Qed.

Lemma built_names_are_components idx :
  built idx -> names_are_components (root idx).
Proof.
  induction 1 as [|depth idx path e idx' _ IH Hinsert].
  - apply names_are_components_new_node.
  - apply insert_inv in Hinsert as (parts & Hparts & ->). simpl.
    apply names_are_components_insert_at; [|done].
    by apply (atomize_path_components depth path).
Qed.

(** In such an index every directory can be listed by [main_find]. *)
Lemma built_forallb_is_component idx q m :
  built idx -> node_at (root idx) q = Some m ->
  forallb is_component (get_children m) = true.
Proof.
  intros Hbuilt Hq. apply forallb_get_children. intros name Hname.
  by apply (built_names_are_components idx Hbuilt q m name).
Qed.

(** * More properties *)

(** ** The adapter under any sequence of calls *)

Section WrapperCallProperties.
Context {R : Type} `{BgzfLineReader R}.

Lemma read_offset_le (self : BgzfWrapper R) n :
  offset self <= offset (read self n).2.
Proof.
  rewrite read_unfold. simpl.
  pose proof (len_nonneg (reader_read (reader self) n).1). lia.
Qed.

Lemma seek_loop_offset_le fuel : forall (self : BgzfWrapper R) distance,
  offset self <= offset (seek_loop fuel self distance).
Proof.
  induction fuel as [|fuel IH]; intros self distance; simpl.
  - destruct (0 <? distance); lia.
  - destruct (0 <? distance); [|lia].
    pose proof (read_offset_le self distance) as Hr.
    destruct (read self distance) as [bytes_read self']. simpl in Hr.
    destruct (len bytes_read =? 0); [done|].
    etrans; [exact Hr | apply IH].
Qed.

Lemma after_call_offset_le (self : BgzfWrapper R) c :
  offset self <= offset (after_call self c).
Proof.
  destruct c as [n| | |target whence]; simpl.
  - apply read_offset_le.
  - unfold readline. destruct (reader_readline (reader self)) as [line r].
    simpl. pose proof (len_nonneg line). lia.
  - lia.
  - unfold seek. destruct (whence =? SEEK_END); simpl; [lia|].
    match goal with |- context [negb ?b] => destruct b end; simpl; [|lia].
    apply seek_loop_offset_le.
Qed.

(** X1. Whatever is called on the wrapper, reads, line reads, seeks that
    succeed and seeks that fail, [tell()] never goes down. *)
Theorem tell_never_decreases (self : BgzfWrapper R) calls :
  tell self <= tell (after_calls self calls).
Proof.
  unfold after_calls, tell. revert self.
  induction calls as [|c calls IH]; intros self; simpl; [lia|].
  etrans; [apply (after_call_offset_le self c) | apply IH].
Qed.

Section StreamCalls.
Context `{!StreamReader R} `{!StreamLineReader R}.

Lemma seek_eats (self : BgzfWrapper R) target whence :
  exists eaten,
    stream (reader self) = eaten ++ stream (reader (seek self target whence).2) /\
    offset (seek self target whence).2 = offset self + len eaten.
Proof.
  unfold seek. destruct (whence =? SEEK_END); simpl.
  { exists []. split; [done|]. unfold len. simpl. lia. }
  set (distance := if whence =? SEEK_SET then target - offset self else target).
  destruct (0 <=? distance) eqn:Hd; simpl.
  - destruct (seek_loop_seek_while (Z.to_nat distance) self distance)
      as [reads Hreads]; [lia|].
    destruct (seek_while_consumes _ _ _ _ Hreads) as (eaten & Hs & Ho & _).
    by exists eaten.
  - exists []. split; [done|]. unfold len. simpl. lia.
Qed.

Lemma after_call_eats (self : BgzfWrapper R) c :
  supported_call c ->
  exists eaten,
    stream (reader self) = eaten ++ stream (reader (after_call self c)) /\
    offset (after_call self c) = offset self + len eaten.
Proof.
  destruct c as [n| | |target whence]; simpl; intros Hc.
  - rewrite read_unfold. simpl. eexists. split; [|done].
    by apply read_next.
  - unfold readline.
    pose proof (readline_next (reader self)) as Hl.
    destruct (reader_readline (reader self)) as [line r]. simpl in *.
    by exists line.
  - exists []. split; [done|]. unfold len. simpl. lia.
  - apply seek_eats.
Qed.

(** X2. The offset of the wrapper counts the bytes taken from the stream:
    after any sequence of supported calls, what was ahead in the stream is
    what the calls consumed followed by what is ahead now, and [tell()] has
    grown by the number of bytes consumed. *)
Theorem tell_counts_consumed_bytes (self : BgzfWrapper R) calls :
  Forall supported_call calls ->
  exists eaten,
    stream (reader self) = eaten ++ stream (reader (after_calls self calls)) /\
    tell (after_calls self calls) = tell self + len eaten.
Proof.
  unfold after_calls, tell. revert self.
  induction calls as [|c calls IH]; intros self Hcalls; simpl.
  - exists []. split; [done|]. unfold len. simpl. lia.
  - apply Forall_cons in Hcalls as [Hc Hcalls].
    destruct (after_call_eats self c Hc) as (eaten1 & Hs1 & Ho1).
    destruct (IH (after_call self c) Hcalls) as (eaten2 & Hs2 & Ho2).
    exists (eaten1 ++ eaten2). split.
    + by rewrite Hs1, Hs2 at 1; rewrite app_assoc.
    + rewrite Ho2, Ho1, len_app. lia.
Qed.
End StreamCalls.
End WrapperCallProperties.

(** ** Forward seeks, position by position *)

Section SeekPosition.
Context {R : Type} `{BgzfReader R} `{!StreamReader R}.

(** Where a forward seek ends: [distance] bytes on, or at the end of the
    stream when it is nearer. *)
Lemma seek_position (self : BgzfWrapper R) target whence :
  whence = SEEK_SET \/ whence = SEEK_CUR ->
  let distance := if whence =? SEEK_SET then target - offset self
                  else target in
  0 <= distance ->
  let advance := Z.min distance (len (stream (reader self))) in
  (seek self target whence).1 = Returns tt /\
  offset (seek self target whence).2 = offset self + advance /\
  stream (reader (seek self target whence).2) =
    drop (Z.to_nat advance) (stream (reader self)).
Proof.
  intros Hwhence distance Hpos advance.
  destruct (seek_loop_seek_while (Z.to_nat distance) self distance)
    as [reads Hreads]; [lia|].
  assert (seek self target whence =
          (Returns tt, seek_loop (Z.to_nat distance) self distance)) as ->.
  { unfold seek. fold distance.
    assert ((whence =? SEEK_END) = false) as ->
      by (destruct Hwhence as [-> | ->]; reflexivity).
    by assert ((0 <=? distance) = true) as -> by by apply Z.leb_le. }
  simpl. split; [done|].
  destruct (seek_while_consumes _ _ _ _ Hreads) as (eaten & Hs & Ho & Hle & Hend).
  set (self' := seek_loop (Z.to_nat distance) self distance) in *.
  pose proof (len_nonneg (stream (reader self'))) as Hnn.
  assert (len (stream (reader self)) = len eaten + len (stream (reader self')))
    as Hrem by (by rewrite Hs, len_app).
  assert (advance = len eaten) as ->.
  { unfold advance. destruct (decide (len eaten < distance)) as [Hlt|Hge].
    - destruct Hend as [Hnil _]; [done|]. rewrite Hnil in Hrem.
      unfold len at 3 in Hrem. simpl in Hrem. lia.
    - lia. }
  split; [done|]. rewrite Hs. unfold len. rewrite Nat2Z.id.
  by rewrite drop_app_length.
Qed.

(** X3. After a forward seek that is given room by the stream, the bytes
    ahead are those of the stream from the target on; in general the seek
    returns, and has advanced [tell()] and the stream by the distance asked
    for or by what the stream had left, whichever is less. *)
Theorem seek_leaves_stream_at_target (self : BgzfWrapper R) target :
  tell self <= target ->
  let self' := (seek self target SEEK_SET).2 in
  let advance := Z.min (target - tell self) (len (stream (reader self))) in
  (seek self target SEEK_SET).1 = Returns tt /\
  tell self' = tell self + advance /\
  stream (reader self') = drop (Z.to_nat advance) (stream (reader self)) /\
  (target - tell self <= len (stream (reader self)) -> tell self' = target).
Proof.
  intros Hforward self' advance. unfold tell in *.
  destruct (seek_position self target SEEK_SET) as (Hret & Ho & Hs);
    [by left | simpl; lia |].
  simpl in Ho, Hs. fold self' in Ho, Hs. fold advance in Ho, Hs.
  repeat split; [done|done|done|]. intros Hroom. rewrite Ho.
  unfold advance. lia.
Qed.

(** X4. Two forward seeks in a row end where the second alone would have:
    same [tell()], same stream ahead. *)
Theorem seek_twice_as_once (self : BgzfWrapper R) target1 target2 :
  tell self <= target1 -> target1 <= target2 ->
  let self1 := (seek self target1 SEEK_SET).2 in
  (seek self1 target2 SEEK_SET).1 = Returns tt /\
  tell (seek self1 target2 SEEK_SET).2 = tell (seek self target2 SEEK_SET).2 /\
  stream (reader (seek self1 target2 SEEK_SET).2) =
    stream (reader (seek self target2 SEEK_SET).2).
Proof.
  intros H1 H2 self1. unfold tell in *.
  destruct (seek_position self target1 SEEK_SET) as (_ & Ho1 & Hs1);
    [by left | simpl; lia |].
  destruct (seek_position self target2 SEEK_SET) as (_ & Ho2 & Hs2);
    [by left | simpl; lia |].
  simpl in Ho1, Hs1, Ho2, Hs2. fold self1 in Ho1, Hs1.
  pose proof (len_nonneg (stream (reader self))) as Hnn.
  destruct (seek_position self1 target2 SEEK_SET) as (Hret & Ho12 & Hs12);
    [by left | simpl; lia |].
  simpl in Ho12, Hs12.
  assert (len (stream (reader self1)) =
          len (stream (reader self)) -
          Z.min (target1 - offset self) (len (stream (reader self)))) as Hlen1.
  { rewrite Hs1. unfold len. rewrite length_drop. lia. }
  split; [done|]. split.
  - rewrite Ho12, Ho2, Ho1, Hlen1. lia.
  - rewrite Hs12, Hs2, Hlen1, Ho1, Hs1, drop_drop. f_equal. lia.
Qed.
End SeekPosition.

(** *** The in-memory reader reads lines and seeks back *)

Lemma take_line_drop l : take_line l ++ drop (length (take_line l)) l = l.
Proof.
  induction l as [|b l IH]; simpl; [done|].
  destruct (Byte.eqb b x0a); simpl; [done | by rewrite IH].
Qed.

#[export] Instance mem_reader_lines : StreamLineReader MemReader.
Proof. constructor. intros r. simpl. by rewrite take_line_drop. Qed.

Lemma mem_position_tell r : mem_position (mem_tell r) = consumed r.
Proof.
  unfold mem_position, mem_tell, block_raw, block_size.
  set (c := consumed r).
  pose proof (Z.mod_pos_bound c 4 ltac:(lia)) as Hm.
  rewrite Z.shiftl_mul_pow2, Z.shiftr_div_pow2, Z.land_ones by lia.
  change (2 ^ 16) with 65536.
  assert ((3 * (c / 4) * 65536 + c mod 4) / 65536 = 3 * (c / 4)) as ->
    by (symmetry; apply Z.div_unique with (r := c mod 4); lia).
  assert ((3 * (c / 4) * 65536 + c mod 4) mod 65536 = c mod 4) as ->
    by (symmetry; apply Z.mod_unique with (q := 3 * (c / 4)); lia).
  rewrite (Z.mul_comm 3), Z.div_mul by lia.
  pose proof (Z.div_mod c 4 ltac:(lia)). lia.
Qed.

Lemma mem_reads_to r0 r :
  reads_to r0 r ->
  exists k : nat,
    consumed r = consumed r0 + Z.of_nat k /\ pending r = drop k (pending r0).
Proof.
  induction 1 as [r|r n r' _ (k & Hc & Hp)].
  - exists 0%nat. split; [lia | done].
  - simpl in Hc, Hp.
    exists (length (take (Z.to_nat n) (pending r)) + k)%nat. split.
    + rewrite Hc. unfold len. lia.
    + rewrite Hp, drop_drop, length_take.
      destruct (decide (Z.to_nat n <= length (pending r))%nat) as [Hle|Hgt].
      * f_equal. lia.
      * rewrite !drop_ge; [done| |]; lia.
Qed.

#[export] Instance mem_reader_seeks_back : SeekBackReader MemReader.
Proof.
  constructor. intros r0 r Hreads.
  change (pending (mem_seek r0 (mem_tell r)) = pending r).
  unfold mem_seek. rewrite mem_position_tell. cbn [pending].
  destruct (mem_reads_to r0 r Hreads) as (k & Hc & Hp).
  rewrite Hp. f_equal. lia.
Qed.

Lemma tell_counts_consumed_bytes_witness :
  exists eaten,
    stream (reader (new_wrapper (mem_open ten_bytes) 0)) =
      eaten ++ stream (reader (after_calls (new_wrapper (mem_open ten_bytes) 0)
                                 some_calls)) /\
    tell (after_calls (new_wrapper (mem_open ten_bytes) 0) some_calls) =
      tell (new_wrapper (mem_open ten_bytes) 0) + len eaten.
Proof.
  apply (tell_counts_consumed_bytes (new_wrapper (mem_open ten_bytes) 0)
           some_calls).
  repeat constructor.
Defined.

Lemma seek_leaves_stream_at_target_witness :
  (seek wrapper_at_6 8 SEEK_SET).1 = Returns tt /\
  tell (seek wrapper_at_6 8 SEEK_SET).2 = 8 /\
  stream (reader (seek wrapper_at_6 8 SEEK_SET).2) = [x08; x09].
Proof.
  destruct (seek_leaves_stream_at_target wrapper_at_6 8)
    as (Hret & Htell & Hstream & Htarget); [vm_compute; discriminate|].
  split; [exact Hret|]. split.
  - apply Htarget. vm_compute; discriminate.
  - rewrite Hstream. vm_compute; reflexivity.
Defined.

Lemma seek_twice_as_once_witness :
  (seek (seek wrapper_at_6 7 SEEK_SET).2 12 SEEK_SET).1 = Returns tt /\
  tell (seek (seek wrapper_at_6 7 SEEK_SET).2 12 SEEK_SET).2 =
    tell (seek wrapper_at_6 12 SEEK_SET).2 /\
  stream (reader (seek (seek wrapper_at_6 7 SEEK_SET).2 12 SEEK_SET).2) =
    stream (reader (seek wrapper_at_6 12 SEEK_SET).2).
Proof.
  apply (seek_twice_as_once wrapper_at_6 7 12); vm_compute; discriminate.
Defined.

(** ** More of the index tree *)

Lemma node_at_app_eq pre : forall n q,
  node_at n (pre ++ q) = node_at n pre ≫= fun parent => node_at parent q.
Proof.
  induction pre as [|part pre IH]; intros n q; simpl; [done|].
  destruct (children n !! part) as [child|]; [apply IH | done].
Qed.

Lemma node_at_insert_at_other parts : forall n e q,
  ~ q `prefix_of` parts ->
  node_at (insert_at n parts e) q = node_at n q.
Proof.
  induction parts as [|part parts IH]; intros n e q Hq.
  - destruct q as [|c q]; [|done]. destruct Hq. by exists [].
  - destruct q as [|c q]; [destruct Hq; apply prefix_nil|]. simpl.
    destruct (decide (part = c)) as [->|Hne].
    + rewrite lookup_insert_eq.
      assert (~ q `prefix_of` parts) as Hq'
        by (intros Hp; apply Hq; by apply prefix_cons).
      rewrite (IH _ e q Hq').
      destruct (children n !! c) as [child|]; simpl; [done|].
      destruct q as [|c' q]; [destruct Hq'; apply prefix_nil|].
      simpl. by rewrite lookup_empty.
    + by rewrite lookup_insert_ne.
Qed.

Lemma entry_at_insert_at parts n e q m x :
  node_at (insert_at n parts e) q = Some m -> entry m = Some x ->
  x = e \/ exists m0, node_at n q = Some m0 /\ entry m0 = Some x.
Proof.
  intros Hq Hx. destruct (decide (q = parts)) as [->|Hne].
  - rewrite node_at_insert_at in Hq. injection Hq as <-. simpl in Hx.
    left. congruence.
  - right. pose proof (get_walk_insert_at_ne parts n e q Hne) as Hg.
    rewrite !get_walk_node_at, Hq, Hx in Hg.
    destruct (node_at n q) as [m0|]; [|done]. exists m0. split; [done|].
    congruence.
Qed.

Lemma insert_at_comm p1 : forall n e1 p2 e2,
  p1 <> p2 ->
  insert_at (insert_at n p1 e1) p2 e2 = insert_at (insert_at n p2 e2) p1 e1.
Proof.
  induction p1 as [|c1 p1 IH]; intros n e1 p2 e2 Hne.
  - destruct p2 as [|c2 p2]; [done|]. reflexivity.
  - destruct p2 as [|c2 p2]; [reflexivity|]. simpl.
    destruct (decide (c1 = c2)) as [->|Hc].
    + rewrite !lookup_insert_eq. simpl. rewrite !insert_insert_eq.
      rewrite IH by congruence. done.
    + rewrite !lookup_insert_ne by done.
      by rewrite insert_insert_ne.
Qed.

Lemma readdir_inv depth idx path names :
  readdir depth idx path = Returns names ->
  exists parts m, atomize_path depth path = Returns parts /\
    node_at (root idx) parts = Some m /\ names = get_children m.
Proof.
  unfold readdir.
  destruct (atomize_path depth path) as [parts|] eqn:Hparts; simpl; [|done].
  rewrite readdir_walk_node_at.
  destruct (first_absent (root idx) parts); [done|].
  destruct (node_at (root idx) parts) as [m|] eqn:Hm; [|done].
  intros [= <-]. by exists parts, m.
Qed.

Lemma readdir_at depth idx path parts m :
  atomize_path depth path = Returns parts ->
  node_at (root idx) parts = Some m ->
  readdir depth idx path = Returns (get_children m).
Proof.
  intros Hparts Hm. unfold readdir. rewrite Hparts. simpl.
  rewrite readdir_walk_node_at.
  assert (first_absent (root idx) parts = None) as ->.
  { apply first_absent_node_at. rewrite Hm. eauto. }
  by rewrite Hm.
Qed.

Lemma get_at depth idx path parts :
  atomize_path depth path = Returns parts ->
  get depth idx path =
  Returns (node_at (root idx) parts ≫= entry).
Proof.
  intros Hparts. unfold get. rewrite Hparts. simpl.
  rewrite get_walk_node_at. by destruct (node_at (root idx) parts).
Qed.

Lemma get_children_nil m : get_children m = [] -> children m = ∅.
Proof.
  unfold get_children. intros Hnil. apply fmap_nil_inv in Hnil.
  by apply map_to_list_empty_iff.
Qed.

Lemma no_empty_directory_child n part child :
  no_empty_directory n -> children n !! part = Some child ->
  entry child = None -> children child <> ∅.
Proof.
  intros Hn Hchild. apply (Hn [part]); [done|]. simpl. by rewrite Hchild.
Qed.

Lemma no_empty_directory_insert_at parts n e :
  no_empty_directory n -> no_empty_directory (insert_at n parts e).
Proof.
  intros Hn q m Hq Hm Hentry.
  destruct (decide (q `prefix_of` parts)) as [[rest ->]|Hother].
  - destruct rest as [|c rest].
    + rewrite app_nil_r, node_at_insert_at in Hm. injection Hm as <-.
      done.
    + destruct (node_at_insert_at_prefix (q ++ c :: rest) n e q c rest eq_refl)
        as (m' & Hm' & [child Hchild]).
      rewrite Hm in Hm'. injection Hm' as <-.
      intros Hempty. by rewrite Hempty, lookup_empty in Hchild.
  - rewrite node_at_insert_at_other in Hm by done. by apply (Hn q m).
Qed.

Lemma built_from_built es idx : built_from es idx -> built idx.
Proof.
  induction 1 as [|es depth idx path e idx' _ IH Hinsert];
    [constructor | by econstructor].
Qed.

Lemma built_no_empty_directory idx :
  built idx -> no_empty_directory (root idx).
Proof.
  induction 1 as [|depth idx path e idx' _ IH Hinsert].
  - intros q m Hq Hm. destruct q as [|c q]; [done|].
    simpl in Hm. by rewrite lookup_empty in Hm.
  - apply insert_inv in Hinsert as (parts & _ & ->). simpl.
    by apply no_empty_directory_insert_at.
Qed.

Lemma built_from_holds es idx e :
  built_from es idx -> holds idx e -> e ∈ es.
Proof.
  induction 1 as [|es depth idx path e0 idx' _ IH Hinsert];
    intros (q & m & Hq & Hm).
  - destruct q as [|c q]; simpl in Hq.
    + by injection Hq as <-.
    + by rewrite lookup_empty in Hq.
  - apply insert_inv in Hinsert as (parts & _ & ->). simpl in Hq.
    apply elem_of_app.
    destruct (entry_at_insert_at parts (root idx) e0 q m e Hq Hm)
      as [->|(m0 & Hq0 & Hm0)].
    + right. by apply list_elem_of_singleton.
    + left. apply IH. by exists q, m0.
Qed.

(** X5. What is inserted can be looked up, under the inserted path and
    under any path with the same components (a doubled or a trailing
    slash changes nothing). *)
Theorem insert_then_get depth idx path e idx' other :
  insert depth idx path e = Returns idx' ->
  atomize_path depth other = atomize_path depth path ->
  get depth idx' other = Returns (Some e).
Proof.
  intros Hinsert Hother.
  apply insert_inv in Hinsert as (parts & Hparts & ->).
  rewrite Hparts in Hother. rewrite (get_at depth _ other parts Hother).
  simpl. by rewrite node_at_insert_at.
Qed.

Lemma insert_then_get_witness :
  get 8 index_b "dir//b/" = Returns (Some entry_b).
Proof.
  apply (insert_then_get 8 new_index "dir/b" entry_b index_b "dir//b/");
    vm_compute; reflexivity.
Defined.

(** X6. Insertions at paths with different components can be made in
    either order: the index is the same. *)
Theorem insert_order_irrelevant depth idx path1 e1 path2 e2 idx1 idx12 :
  insert depth idx path1 e1 = Returns idx1 ->
  insert depth idx1 path2 e2 = Returns idx12 ->
  atomize_path depth path1 <> atomize_path depth path2 ->
  exists idx2,
    insert depth idx path2 e2 = Returns idx2 /\
    insert depth idx2 path1 e1 = Returns idx12.
Proof.
  intros H1 H12 Hne.
  apply insert_inv in H1 as (parts1 & Hparts1 & ->).
  apply insert_inv in H12 as (parts2 & Hparts2 & ->). simpl.
  exists (mkIndex (insert_at (root idx) parts2 e2)).
  unfold insert. rewrite Hparts1, Hparts2. simpl.
  rewrite !insert_walk_insert_at. simpl. split; [done|].
  rewrite (insert_at_comm parts1 (root idx) e1 parts2 e2); [done|].
  congruence.
Qed.

Lemma insert_order_irrelevant_witness :
  exists idx2,
    insert 8 new_index "a" entry_a = Returns idx2 /\
    insert 8 idx2 "dir/b" entry_b = Returns index_b_then_a.
Proof.
  apply (insert_order_irrelevant 8 new_index "dir/b" entry_b "a" entry_a
           index_b index_b_then_a); vm_compute; [reflexivity..|discriminate].
Defined.

(** X7. The empty index holds nothing: at every path that splits, [get]
    returns [None]; [readdir] returns no name for the root and raises
    "not found", with the first component, for any other path; the listing
    of the root prints nothing. *)
Theorem new_index_has_nothing depth path parts :
  atomize_path depth path = Returns parts ->
  get depth new_index path = Returns None /\
  readdir depth new_index path =
    match parts with
    | [] => Returns []
    | part :: _ => Raises (RuntimeError_not_found part)
    end /\
  (parts = [] -> main_find depth new_index path = (Returns tt, [])).
Proof.
  intros Hparts.
  assert (readdir depth new_index path =
    match parts with
    | [] => Returns []
    | part :: _ => Raises (RuntimeError_not_found part)
    end) as Hreaddir.
  { unfold readdir. rewrite Hparts. simpl.
    destruct parts as [|part parts]; simpl; [done|].
    rewrite has_child_lookup. simpl. by rewrite lookup_empty. }
  split; [|split; [done|]].
  - unfold get. rewrite Hparts. simpl. apply get_walk_new_node.
  - intros ->. unfold main_find. by rewrite Hreaddir.
Qed.

Lemma new_index_has_nothing_witness :
  get 8 new_index "dir/b" = Returns None /\
  readdir 8 new_index "dir/b" = Raises (RuntimeError_not_found "dir") /\
  (["dir"; "b"] = [] -> main_find 8 new_index "dir/b" = (Returns tt, [])).
Proof.
  apply (new_index_has_nothing 8 "dir/b" ["dir"; "b"]). vm_compute; reflexivity.
Defined.

(** X8. In an index made by insertions, the names [readdir] returns are
    all different, and each is one component: not empty, without a
    slash. *)
Theorem built_readdir_names depth idx path names :
  built idx ->
  readdir depth idx path = Returns names ->
  NoDup names /\ Forall (fun name => is_component name = true) names.
Proof.
  intros Hbuilt (parts & m & _ & Hm & ->)%readdir_inv.
  split; [apply NoDup_get_children|].
  apply Forall_forall. intros name Hname.
  apply (built_names_are_components idx Hbuilt parts m name Hm).
  by apply elem_of_get_children.
Qed.

Lemma index_b_built : built index_b.
Proof.
  apply (built_insert 8 new_index "dir/b" entry_b); [constructor|].
  vm_compute; reflexivity.
Qed.

Lemma index_abc_built_from : built_from [entry_a; entry_b; entry_c] index_abc.
Proof.
  apply (built_from_insert [entry_a; entry_b] 8
           (result_or new_index
              (idx <- insert 8 new_index "a" entry_a ;;
               insert 8 idx "dir/b" entry_b))
           "dir/c" entry_c); [|vm_compute; reflexivity].
  apply (built_from_insert [entry_a] 8 index_a "dir/b" entry_b);
    [|vm_compute; reflexivity].
  apply (built_from_insert [] 8 new_index "a" entry_a);
    [constructor | vm_compute; reflexivity].
Qed.

Lemma built_readdir_names_witness :
  NoDup (get_children node_dir) /\
  Forall (fun name => is_component name = true) (get_children node_dir).
Proof.
  apply (built_readdir_names 8 index_abc "dir" (get_children node_dir)).
  - exact (built_from_built _ _ index_abc_built_from).
  - vm_compute; reflexivity.
Defined.

(** X9. In an index made by insertions, a directory below the root that
    has no entry of its own has at least one child: directories come into
    being only on the way to an inserted path. *)
Theorem built_directory_has_child depth idx path part parts names :
  built idx ->
  atomize_path depth path = Returns (part :: parts) ->
  readdir depth idx path = Returns names ->
  get depth idx path = Returns None ->
  names <> [].
Proof.
  intros Hbuilt Hparts (parts' & m & Hparts' & Hm & ->)%readdir_inv Hget.
  rewrite Hparts in Hparts'. injection Hparts' as <-.
  rewrite (get_at depth idx path _ Hparts), Hm in Hget. simpl in Hget.
  injection Hget as Hentry. intros Hnil%get_children_nil.
  by apply (built_no_empty_directory idx Hbuilt (part :: parts) m).
Qed.

Lemma built_directory_has_child_witness : get_children node_dir <> [].
Proof.
  apply (built_directory_has_child 8 index_abc "dir" "dir" []
           (get_children node_dir)).
  - exact (built_from_built _ _ index_abc_built_from).
  - vm_compute; reflexivity.
  - vm_compute; reflexivity.
  - vm_compute; reflexivity.
Defined.

(** X10. [get] returns nothing but what was inserted: in an index made by
    inserting the entries [es], an entry that [get] returns is one of
    [es]. *)
Theorem get_returns_inserted es depth idx path e :
  built_from es idx ->
  get depth idx path = Returns (Some e) ->
  e ∈ es.
Proof.
  intros Hbuilt Hget. apply (built_from_holds es idx e Hbuilt).
  unfold get in Hget.
  destruct (atomize_path depth path) as [parts|]; simpl in Hget; [|done].
  rewrite get_walk_node_at in Hget.
  destruct (node_at (root idx) parts) as [m|] eqn:Hm; [|done].
  exists parts, m. split; [done | congruence].
Qed.

Lemma get_returns_inserted_witness : entry_c ∈ [entry_a; entry_b; entry_c].
Proof.
  apply (get_returns_inserted [entry_a; entry_b; entry_c] 8 index_abc "dir/c").
  - exact index_abc_built_from.
  - vm_compute; reflexivity.
Defined.

(** X11. A path that [get] finds is listed in its directory: when [get]
    returns an entry for a path whose last component is [name], [readdir]
    of any path with the components before it returns [name] among the
    names. *)
Theorem found_is_listed depth idx path dir pre name e :
  atomize_path depth path = Returns (pre ++ [name]) ->
  atomize_path depth dir = Returns pre ->
  get depth idx path = Returns (Some e) ->
  exists names, readdir depth idx dir = Returns names /\ name ∈ names.
Proof.
  intros Hpath Hdir Hget.
  rewrite (get_at depth idx path _ Hpath), node_at_app_eq in Hget.
  destruct (node_at (root idx) pre) as [parent|] eqn:Hparent; [|done].
  simpl in Hget. exists (get_children parent). split.
  - by apply (readdir_at depth idx dir pre).
  - apply elem_of_get_children.
    destruct (children parent !! name); [eauto | done].
Qed.

Lemma found_is_listed_witness :
  exists names, readdir 8 index_abc "dir" = Returns names /\ "c" ∈ names.
Proof.
  apply (found_is_listed 8 index_abc "dir/c" "dir" ["dir"] "c" entry_c);
    vm_compute; reflexivity.
Defined.

(** X12. In an index made by insertions, every name that [readdir]
    returns for a directory can be joined to the directory's path and
    given back to [readdir] and to [get]: neither raises. *)
Theorem listed_can_be_entered depth idx dir names name :
  built idx ->
  readdir depth idx dir = Returns names ->
  name ∈ names ->
  exists names' found,
    readdir (S depth) idx (os_path_join dir name) = Returns names' /\
    get (S depth) idx (os_path_join dir name) = Returns found.
Proof.
  intros Hbuilt (parts & m & Hparts & Hm & ->)%readdir_inv Hname.
  apply elem_of_get_children in Hname as Hchild.
  destruct Hchild as [child Hchild].
  pose proof (built_names_are_components idx Hbuilt parts m name Hm
                (ex_intro _ child Hchild)) as Hcomponent.
  pose proof (atomize_path_join depth dir parts name Hparts Hcomponent)
    as Hjoin.
  assert (node_at (root idx) (parts ++ [name]) = Some child) as Hnode
    by (by rewrite (node_at_app parts _ m name Hm)).
  exists (get_children child), (entry child). split.
  - by apply (readdir_at (S depth) idx _ (parts ++ [name])).
  - rewrite (get_at (S depth) idx _ _ Hjoin), Hnode. done.
Qed.

Lemma listed_can_be_entered_witness :
  exists names' found,
    readdir 8 index_abc (os_path_join "" "dir") = Returns names' /\
    get 8 index_abc (os_path_join "" "dir") = Returns found.
Proof.
  apply (listed_can_be_entered 7 index_abc "" (get_children (root index_abc))
           "dir").
  - exact (built_from_built _ _ index_abc_built_from).
  - vm_compute; reflexivity.
  - vm_compute. right. left.
Defined.

(** X13. On an index made by insertions the listing never stops half
    way.  For a directory path that splits: when its components lead to a
    node, the listing returns having printed one line for each child, and
    the size on each line is the size of the entry that [get] returns for
    the full name printed, 0 when [get] returns none; when a component is
    missing, the listing raises "not found" and prints nothing. *)
Theorem main_find_on_built depth idx find parts :
  built idx ->
  atomize_path depth find = Returns parts ->
  match node_at (root idx) parts with
  | Some m =>
      exists printed,
        main_find (S depth) idx find = (Returns tt, printed) /\
        length printed = length (get_children m) /\
        forall full_name printed_size,
          (full_name, printed_size) ∈ printed ->
          exists found,
            get (S depth) idx full_name = Returns found /\
            printed_size = match found with Some e => size e | None => 0 end
  | None =>
      exists part, part ∈ parts /\
        main_find (S depth) idx find =
        (Raises (RuntimeError_not_found part), [])
  end.
Proof.
  intros Hbuilt Hparts.
  pose proof (atomize_path_mono depth (S depth) find parts Hparts
                ltac:(lia)) as Hparts'.
  destruct (node_at (root idx) parts) as [m|] eqn:Hm.
  - eexists. split; [|split].
    + unfold main_find. rewrite (readdir_at (S depth) idx find parts m);
        [|done|done].
      apply (find_loop_lines depth idx find parts m); [done|done|].
      intros name Hname.
      apply (built_names_are_components idx Hbuilt parts m name Hm).
      by apply elem_of_get_children.
    + by rewrite length_fmap.
    + intros full_name printed_size
        (name & [= -> ->] & Hname)%list_elem_of_fmap.
      apply elem_of_get_children in Hname as Hchild.
      pose proof (built_names_are_components idx Hbuilt parts m name Hm
                    Hchild) as Hcomponent.
      exists (children m !! name ≫= entry). split; [|done].
      rewrite (get_at (S depth) idx _ (parts ++ [name])).
      * by rewrite (node_at_app parts _ m name Hm).
      * by apply atomize_path_join.
  - destruct (first_absent (root idx) parts) as [part|] eqn:Hf.
    + exists part. split; [by eapply first_absent_elem|].
      unfold main_find, readdir. rewrite Hparts'. simpl.
      by rewrite readdir_walk_node_at, Hf.
    + apply first_absent_node_at in Hf. rewrite Hm in Hf. by destruct Hf.
Qed.

Lemma main_find_on_built_witness :
  exists printed,
    main_find 8 index_abc "dir" = (Returns tt, printed) /\
    length printed = length (get_children node_dir) /\
    forall full_name printed_size,
      (full_name, printed_size) ∈ printed ->
      exists found,
        get 8 index_abc full_name = Returns found /\
        printed_size = match found with Some e => size e | None => 0 end.
Proof.
  pose proof (main_find_on_built 7 index_abc "dir" ["dir"]
                (built_from_built _ _ index_abc_built_from) eq_refl) as Hw.
  exact Hw.
Defined.

(** ** More of [atomize_path] *)

(** X14. A path that does not begin with a slash is split into its
    non-empty slash-delimited pieces, given one stack frame per character
    and one more; each piece is a component. *)
Theorem atomize_path_splits depth path :
  startswith_slash path = false ->
  (String.length path < depth)%nat ->
  atomize_path depth path = Returns (components path) /\
  Forall (fun name => is_component name = true) (components path).
Proof.
  intros Hrel Hlen.
  pose proof (atomize_path_relative depth path Hrel Hlen) as Hsplit.
  split; [done|]. by apply (atomize_path_components depth path).
Qed.

Lemma atomize_path_splits_witness :
  atomize_path 12 "dir//sub/b/" = Returns (components "dir//sub/b/") /\
  Forall (fun name => is_component name = true) (components "dir//sub/b/").
Proof.
  apply (atomize_path_splits 12 "dir//sub/b/"); [reflexivity|].
  vm_compute. repeat constructor.
Defined.

(** X15. [atomize_path] returns, with stack enough, exactly for the paths
    that do not begin with a slash. *)
Theorem atomize_path_returns_iff path :
  (exists depth parts, atomize_path depth path = Returns parts) <->
  startswith_slash path = false.
Proof.
  split.
  - intros (depth & parts & Hparts).
    destruct (startswith_slash path) eqn:Habs; [|done].
    by rewrite (atomize_path_absolute depth path Habs) in Hparts.
  - intros Hrel. exists (S (String.length path)), (components path).
    apply atomize_path_relative; [done | lia].
Qed.

(** X16. Components joined with [os.path.join], one after the other from
    the empty path, are split into the same components again. *)
Theorem join_components_atomize depth parts :
  Forall (fun name => is_component name = true) parts ->
  (length parts < depth)%nat ->
  atomize_path depth (join_components parts) = Returns parts.
Proof.
  intros Hparts Hdepth.
  apply atomize_path_mono with (depth := S (length parts)); [|lia].
  by apply atomize_path_join_components.
Qed.

Lemma join_components_atomize_witness :
  atomize_path 8 (join_components ["dir"; "sub"; "b"]) =
  Returns ["dir"; "sub"; "b"].
Proof.
  apply (join_components_atomize 8 ["dir"; "sub"; "b"]).
  - repeat constructor.
  - vm_compute. repeat constructor.
Defined.

(** X17. The full name that the listing makes of a directory path and a
    child's name, [os.path.join(find, name)], has the components of the
    directory path followed by the name, whether or not the directory path
    ends with a slash; so [get] of the full name returns the entry of that
    child of the directory's node, if there is such a child and it has
    one. *)
Theorem joined_name_components depth idx find parts m name :
  atomize_path depth find = Returns parts ->
  is_component name = true ->
  node_at (root idx) parts = Some m ->
  atomize_path (S depth) (os_path_join find name) = Returns (parts ++ [name]) /\
  get (S depth) idx (os_path_join find name) =
    Returns (children m !! name ≫= entry).
Proof.
  intros Hparts Hname Hm.
  pose proof (atomize_path_join depth find parts name Hparts Hname) as Hjoin.
  split; [done|].
  by rewrite (get_at (S depth) idx _ _ Hjoin), (node_at_app parts _ m name Hm).
Qed.

Lemma joined_name_components_witness :
  atomize_path 8 (os_path_join "dir/" "c") = Returns (["dir"] ++ ["c"]) /\
  get 8 index_abc (os_path_join "dir/" "c") =
    Returns (children node_dir !! "c" ≫= entry).
Proof.
  apply (joined_name_components 7 index_abc "dir/" ["dir"] node_dir "c");
    vm_compute; reflexivity.
Defined.

(** ** More of the index build *)

Lemma insert_holds depth idx path e idx' x :
  insert depth idx path e = Returns idx' ->
  holds idx' x -> x = e \/ holds idx x.
Proof.
  intros (parts & _ & ->)%insert_inv (q & m & Hq & Hm). simpl in Hq.
  destruct (entry_at_insert_at parts (root idx) e q m x Hq Hm)
    as [->|(m0 & Hq0 & Hm0)]; [by left|].
  right. by exists q, m0.
Qed.

Lemma real_offsets_ascend_le entries : forall o (i : nat) e,
  real_offsets_ascend o entries -> entries !! i = Some e ->
  o <= real_offset e.
Proof.
  induction entries as [|e0 entries IH]; intros o i e Ha Hi; [done|].
  destruct Ha as [Hle Ha]. destruct i as [|i]; simpl in Hi.
  - injection Hi as <-. done.
  - pose proof (IH _ i e Ha Hi). lia.
Qed.

Lemma real_offsets_ascend_sorted entries : forall o (i j : nat) e e',
  real_offsets_ascend o entries -> (i <= j)%nat ->
  entries !! i = Some e -> entries !! j = Some e' ->
  real_offset e <= real_offset e'.
Proof.
  induction entries as [|e0 entries IH]; intros o i j e e' Ha Hij Hi Hj;
    [done|].
  destruct Ha as [Hle Ha]. destruct i as [|i]; simpl in Hi.
  - injection Hi as <-. destruct j as [|j]; simpl in Hj.
    + injection Hj as <-. lia.
    + by apply (real_offsets_ascend_le entries _ j e').
  - destruct j as [|j]; [lia|]. simpl in Hj.
    apply (IH _ i j e e' Ha); [lia|done|done].
Qed.

Section BuildIndexMore.
Context {R : Type} `{BgzfReader R}.

Lemma seek_offset_le (self : BgzfWrapper R) target whence :
  offset self <= offset (seek self target whence).2.
Proof.
  unfold seek. destruct (whence =? SEEK_END); simpl; [lia|].
  match goal with |- context [negb ?b] => destruct b end; simpl; [|lia].
  apply seek_loop_offset_le.
Qed.

(** The loop keeps [tar_offset] behind the wrapper, and the real offsets
    it gives to the entries go up from it. *)
Lemma index_loop_real_offsets depth archive_tar : forall st : IndexState R,
  tar_offset st <= offset (archive_wrapper st) ->
  exists made,
    created (index_loop depth archive_tar st).2 = created st ++ made /\
    real_offsets_ascend (tar_offset st) made /\
    (forall e, made !! 0%nat = Some e -> real_offset e = tar_offset st).
Proof.
  induction archive_tar as [n k IH|pos k IH|k IH|info next k IH| |];
    intros st Hinv; simpl.
  - pose proof (read_offset_le (archive_wrapper st) n) as Hr.
    destruct (read (archive_wrapper st) n) as [bytes_read w]. simpl in Hr.
    apply (IH bytes_read (with_wrapper st w)). simpl. lia.
  - pose proof (seek_offset_le (archive_wrapper st) pos SEEK_SET) as Hs.
    destruct (seek (archive_wrapper st) pos SEEK_SET) as [[[]|ex] w];
      simpl in Hs.
    + apply (IH (with_wrapper st w)). simpl. lia.
    + exists []. simpl. by rewrite app_nil_r.
  - by apply IH.
  - pose proof (seek_offset_le (archive_wrapper st) next SEEK_SET) as Hs.
    destruct (seek (archive_wrapper st) next SEEK_SET) as [[[]|ex] w];
      simpl in Hs.
    + set (e := mkIndexEntry (bgzf_offset st) (tar_offset st)
                  (info_size info) (reader_tell (reader w))).
      destruct (insert depth (index st) (info_name info) e) as [index'|ex].
      * destruct (IH (mkIndexState w (reader_tell (reader w)) (tell w)
                        index' (created st ++ [e])))
          as (made & Hmade & Ha & _); [simpl; unfold tell; lia|].
        exists (e :: made). split; [|split].
        -- rewrite Hmade. simpl. by rewrite <- app_assoc.
        -- simpl. split; [lia|].
           clear -Ha Hs Hinv. simpl in Ha. unfold tell in Ha.
           destruct made as [|e' made]; [done|]. simpl in *.
           destruct Ha as [Hle Ha]. split; [lia|done].
        -- by intros e0 [= <-].
      * exists [e]. simpl. split; [done|]. split; [split; [lia|done]|].
        by intros e0 [= <-].
    + exists []. simpl. by rewrite app_nil_r.
  - exists []. simpl. by rewrite app_nil_r.
  - exists []. simpl. by rewrite app_nil_r.
Qed.

(** X18. The real offsets of the entries the build makes start at 0 and
    never go down from one entry to a later one, whatever the reader and
    the parser do. *)
Theorem index_real_offsets_ascend depth (archive_bgzf : R) archive_tar :
  let entries := created (main_index depth archive_bgzf archive_tar).2 in
  (forall e, entries !! 0%nat = Some e -> real_offset e = 0) /\
  (forall (i j : nat) e e', (i <= j)%nat ->
     entries !! i = Some e -> entries !! j = Some e' ->
     real_offset e <= real_offset e').
Proof.
  intros entries. subst entries. unfold main_index.
  destruct (index_loop_real_offsets depth archive_tar
              (mkIndexState (new_wrapper archive_bgzf 0)
                 (reader_tell archive_bgzf)
                 (tell (new_wrapper archive_bgzf 0)) new_index []))
    as (made & Hmade & Ha & Hfirst); [simpl; unfold tell; simpl; lia|].
  rewrite Hmade. simpl in *. split; [done|].
  intros i j e e'. by apply real_offsets_ascend_sorted with (o := 0).
Qed.

(** The index of the loop is made by insertions and holds only entries
    the loop has made. *)
Lemma index_loop_holds depth archive_tar : forall st : IndexState R,
  built (index st) ->
  (forall e, holds (index st) e -> e ∈ created st) ->
  built (index (index_loop depth archive_tar st).2) /\
  (forall e, holds (index (index_loop depth archive_tar st).2) e ->
     e ∈ created (index_loop depth archive_tar st).2).
Proof.
  induction archive_tar as [n k IH|pos k IH|k IH|info next k IH| |];
    intros st Hbuilt Hholds; simpl.
  - destruct (read (archive_wrapper st) n) as [bytes_read w].
    by apply (IH bytes_read (with_wrapper st w)).
  - destruct (seek (archive_wrapper st) pos SEEK_SET) as [[[]|ex] w].
    + by apply (IH (with_wrapper st w)).
    + done.
  - by apply IH.
  - destruct (seek (archive_wrapper st) next SEEK_SET) as [[[]|ex] w];
      [|done].
    set (e := mkIndexEntry (bgzf_offset st) (tar_offset st)
                (info_size info) (reader_tell (reader w))).
    destruct (insert depth (index st) (info_name info) e) as [index'|ex]
      eqn:Hinsert.
    + apply IH; simpl.
      * by apply (built_insert depth (index st) (info_name info) e).
      * intros x Hx. apply elem_of_app.
        destruct (insert_holds _ _ _ _ _ x Hinsert Hx) as [->|Hold].
        -- right. by apply list_elem_of_singleton.
        -- left. by apply Hholds.
    + simpl. split; [done|]. intros x Hx. apply elem_of_app. left.
      by apply Hholds.
  - done.
  - done.
Qed.

(** X19. The index the build leaves, finished or cut short, is made by
    insertions, and every entry that [get] returns from it is one of the
    entries the loop made. *)
Theorem index_holds_created depth (archive_bgzf : R) archive_tar :
  let st := (main_index depth archive_bgzf archive_tar).2 in
  built (index st) /\
  forall depth' path e,
    get depth' (index st) path = Returns (Some e) -> e ∈ created st.
Proof.
  intros st. subst st. unfold main_index.
  destruct (index_loop_holds depth archive_tar
              (mkIndexState (new_wrapper archive_bgzf 0)
                 (reader_tell archive_bgzf)
                 (tell (new_wrapper archive_bgzf 0)) new_index []))
    as [Hbuilt Hholds].
  - constructor.
  - intros e (q & m & Hq & Hm). simpl in Hq.
    destruct q as [|c q]; simpl in Hq.
    + by injection Hq as <-.
    + by rewrite lookup_empty in Hq.
  - split; [done|]. intros depth' path e Hget. apply Hholds.
    unfold get in Hget.
    destruct (atomize_path depth' path) as [parts|]; simpl in Hget; [|done].
    rewrite get_walk_node_at in Hget.
    match type of Hget with
    | context [node_at ?n parts] =>
        destruct (node_at n parts) as [m|] eqn:Hm; [|done]
    end.
    exists parts, m. split; [done | congruence].
Qed.

(** X20. A member whose name begins with a slash stops the build: once
    the seek to the next member has returned, the insertion raises the
    [RuntimeError] of [atomize_path], the index is left as it was, and the
    members after it are not read. *)
Theorem index_stops_at_absolute_name depth (st : IndexState R) info next k :
  startswith_slash (info_name info) = true ->
  (seek (archive_wrapper st) next SEEK_SET).1 = Returns tt ->
  (index_loop depth (tar_member info next k) st).1 =
    Raises RuntimeError_recursion_depth /\
  index (index_loop depth (tar_member info next k) st).2 = index st /\
  archive_wrapper (index_loop depth (tar_member info next k) st).2 =
    (seek (archive_wrapper st) next SEEK_SET).2.
Proof.
  intros Habs Hseek. cbn [index_loop].
  destruct (seek (archive_wrapper st) next SEEK_SET) as [res w].
  simpl in Hseek. subst res.
  unfold insert. rewrite (atomize_path_absolute depth _ Habs). done.
Qed.
End BuildIndexMore.

Lemma index_real_offsets_ascend_witness :
  let entries := created (main_index 8 (mem_open ten_bytes) two_members).2 in
  (forall e, entries !! 0%nat = Some e -> real_offset e = 0) /\
  (forall (i j : nat) e e', (i <= j)%nat ->
     entries !! i = Some e -> entries !! j = Some e' ->
     real_offset e <= real_offset e').
Proof. exact (index_real_offsets_ascend 8 (mem_open ten_bytes) two_members). Defined.

Lemma index_holds_created_witness :
  let st := (main_index 8 (mem_open ten_bytes) two_members).2 in
  built (index st) /\
  forall depth' path e,
    get depth' (index st) path = Returns (Some e) -> e ∈ created st.
Proof. exact (index_holds_created 8 (mem_open ten_bytes) two_members). Defined.

Lemma index_stops_at_absolute_name_witness :
  (main_index 8 (mem_open ten_bytes) absolute_member).1 =
    Raises RuntimeError_recursion_depth /\
  index (main_index 8 (mem_open ten_bytes) absolute_member).2 = new_index /\
  archive_wrapper (main_index 8 (mem_open ten_bytes) absolute_member).2 =
    (seek (new_wrapper (mem_open ten_bytes) 0) 6 SEEK_SET).2.
Proof.
  apply (index_stops_at_absolute_name 8
           (mkIndexState (new_wrapper (mem_open ten_bytes) 0)
              (reader_tell (mem_open ten_bytes))
              (tell (new_wrapper (mem_open ten_bytes) 0)) new_index [])
           (mkTarInfo "/etc/passwd" 4) 6 tar_stop);
    vm_compute; reflexivity.
Defined.

(** ** From the index back into the archive *)

Section Positions.
Context {R : Type} `{BgzfReader R} `{!StreamReader R}.

Lemma reads_to_trans (r1 r2 r3 : R) :
  reads_to r1 r2 -> reads_to r2 r3 -> reads_to r1 r3.
Proof.
  induction 1 as [r|r n r' _ IH]; [done|].
  intros H3. apply (reads_to_read r n). by apply IH.
Qed.

Lemma reads_to_after_read (r0 : R) (self : BgzfWrapper R) n :
  reads_to r0 (reader self) -> reads_to r0 (reader (read self n).2).
Proof.
  intros Hr. rewrite read_unfold. simpl.
  apply (reads_to_trans _ _ _ Hr). apply (reads_to_read _ n). constructor.
Qed.

Lemma reads_to_after_seek_loop (r0 : R) fuel :
  forall (self : BgzfWrapper R) distance,
    reads_to r0 (reader self) ->
    reads_to r0 (reader (seek_loop fuel self distance)).
Proof.
  induction fuel as [|fuel IH]; intros self distance Hr; simpl.
  - by destruct (0 <? distance).
  - destruct (0 <? distance); [|done].
    pose proof (reads_to_after_read r0 self distance Hr) as Hr'.
    destruct (read self distance) as [bytes_read self']. simpl in Hr'.
    destruct (len bytes_read =? 0); [done|]. by apply IH.
Qed.

Lemma reads_to_after_seek (r0 : R) (self : BgzfWrapper R) target whence :
  reads_to r0 (reader self) ->
  reads_to r0 (reader (seek self target whence).2).
Proof.
  intros Hr. unfold seek. destruct (whence =? SEEK_END); simpl; [done|].
  match goal with |- context [negb ?b] => destruct b end; simpl; [|done].
  by apply reads_to_after_seek_loop.
Qed.

Lemma in_step_eats (r0 : R) (w w' : BgzfWrapper R) :
  in_step r0 w ->
  reads_to r0 (reader w') ->
  (exists eaten,
     stream (reader w) = eaten ++ stream (reader w') /\
     offset w' = offset w + len eaten) ->
  in_step r0 w'.
Proof.
  intros (_ & Hpos & Hs) Hr (eaten & Heaten & Ho).
  split; [done|]. pose proof (len_nonneg eaten). split; [lia|].
  rewrite Ho, Z2Nat.inj_add by lia. rewrite <- drop_drop, <- Hs, Heaten.
  unfold len. rewrite Nat2Z.id. by rewrite drop_app_length.
Qed.

Lemma in_step_read (r0 : R) (w : BgzfWrapper R) n :
  0 < n -> in_step r0 w -> in_step r0 (read w n).2.
Proof.
  intros Hn Hw. apply (in_step_eats r0 w); [done| |].
  - apply reads_to_after_read. apply Hw.
  - rewrite read_unfold. simpl. eexists. split; [|done]. by apply read_next.
Qed.

Lemma in_step_seek (r0 : R) (w : BgzfWrapper R) target whence :
  in_step r0 w -> in_step r0 (seek w target whence).2.
Proof.
  intros Hw. apply (in_step_eats r0 w); [done| |].
  - apply reads_to_after_seek. apply Hw.
  - apply seek_eats.
Qed.

Lemma index_loop_positioned depth (r0 : R) archive_tar :
  forall st : IndexState R,
    reads_blocks archive_tar ->
    in_step r0 (archive_wrapper st) ->
    positioned r0 (mkIndexEntry (bgzf_offset st) (tar_offset st) 0 0) ->
    Forall (positioned r0) (created st) ->
    Forall (positioned r0) (created (index_loop depth archive_tar st).2).
Proof.
  induction archive_tar as [n k IH|pos k IH|k IH|info next k IH| |];
    intros st Htar Hw Hnext Hmade; simpl.
  - destruct Htar as [Hn Htar].
    pose proof (in_step_read r0 (archive_wrapper st) n Hn Hw) as Hw'.
    destruct (read (archive_wrapper st) n) as [bytes_read w].
    by apply (IH bytes_read (with_wrapper st w)).
  - pose proof (in_step_seek r0 (archive_wrapper st) pos SEEK_SET Hw) as Hw'.
    destruct (seek (archive_wrapper st) pos SEEK_SET) as [[[]|ex] w];
      [|done].
    by apply (IH (with_wrapper st w)).
  - by apply IH.
  - pose proof (in_step_seek r0 (archive_wrapper st) next SEEK_SET Hw) as Hw'.
    destruct (seek (archive_wrapper st) next SEEK_SET) as [[[]|ex] w];
      [|done].
    simpl in Hw'.
    set (e := mkIndexEntry (bgzf_offset st) (tar_offset st)
                (info_size info) (reader_tell (reader w))).
    assert (Forall (positioned r0) (created st ++ [e])) as Hmade'.
    { apply Forall_app. split; [done|]. constructor; [|constructor].
      destruct Hnext as (r & Hr & Htell & Hpos & Hs). by exists r. }
    destruct (insert depth (index st) (info_name info) e) as [index'|ex];
      [|done].
    apply IH; [done|done| |done].
    destruct Hw' as (Hr & Hpos & Hs). by exists (reader w).
  - done.
  - done.
Qed.

Lemma main_index_positioned depth (archive_bgzf : R) archive_tar :
  reads_blocks archive_tar ->
  Forall (positioned archive_bgzf)
    (created (main_index depth archive_bgzf archive_tar).2).
Proof.
  intros Htar. unfold main_index.
  apply index_loop_positioned; simpl; [done| | |constructor].
  - split; [constructor|]. split; [done|done].
  - exists archive_bgzf. split; [constructor|]. simpl. unfold tell. simpl.
    split; [done|]. split; [done|done].
Qed.

(** X21. The two offsets of an entry are one position of the archive.
    With a reader that reads the decompressed stream and a parser that
    asks for positive numbers of bytes, every entry the build makes has,
    as its virtual offset, what a reader of the archive tells when exactly
    [real_offset] bytes of the decompressed stream are behind it. *)
Theorem index_entries_positioned depth (archive_bgzf : R) archive_tar :
  reads_blocks archive_tar ->
  forall e,
    e ∈ created (main_index depth archive_bgzf archive_tar).2 ->
    exists r,
      reads_to archive_bgzf r /\
      reader_tell r = virtual_offset e /\
      0 <= real_offset e /\
      stream r = drop (Z.to_nat (real_offset e)) (stream archive_bgzf).
Proof.
  intros Htar e He.
  pose proof (main_index_positioned depth archive_bgzf archive_tar Htar)
    as Hall.
  rewrite Forall_forall in Hall. exact (Hall e He).
Qed.
End Positions.

Section ExtractProperties.
Context {R : Type} `{BgzfSeekReader R} `{!StreamReader R} `{!SeekBackReader R}.

(** X22. Extraction starts where the index says.  For a path that [get]
    finds in the index built from an archive, the extraction branch does
    not return early: it hands to [tarfile] a wrapper whose [tell()] is the
    entry's real offset and whose stream is the decompressed archive from
    that offset on, the reader opened on the archive having been moved
    there by one seek to the entry's virtual offset. *)
Theorem extract_starts_where_indexed depth depth' (archive_bgzf : R)
    archive_tar path e :
  reads_blocks archive_tar ->
  let index := index (main_index depth archive_bgzf archive_tar).2 in
  get depth' index path = Returns (Some e) ->
  exists archive_wrapper,
    main_extract_start depth' index path archive_bgzf =
      Returns (extract_wrapped archive_wrapper) /\
    tell archive_wrapper = real_offset e /\
    stream (reader archive_wrapper) =
      drop (Z.to_nat (real_offset e)) (stream archive_bgzf).
Proof.
  intros Htar index Hget.
  assert (positioned archive_bgzf e) as (r & Hr & Htell & Hpos & Hs).
  { pose proof (main_index_positioned depth archive_bgzf archive_tar Htar)
      as Hall.
    rewrite Forall_forall in Hall. apply Hall.
    destruct (index_loop_holds depth archive_tar
                (mkIndexState (new_wrapper archive_bgzf 0)
                   (reader_tell archive_bgzf)
                   (tell (new_wrapper archive_bgzf 0)) new_index []))
      as [_ Hholds].
    - constructor.
    - intros x (q & m & Hq & Hm). simpl in Hq.
      destruct q as [|c q]; simpl in Hq.
      + by injection Hq as <-.
      + by rewrite lookup_empty in Hq.
    - apply Hholds. fold (main_index depth archive_bgzf archive_tar).
      fold index. unfold get in Hget.
      destruct (atomize_path depth' path) as [parts|]; simpl in Hget; [|done].
      rewrite get_walk_node_at in Hget.
      destruct (node_at (root index) parts) as [m|] eqn:Hm; [|done].
      exists parts, m. split; [done | congruence]. }
  eexists. unfold main_extract_start. rewrite Hget. simpl.
  split; [done|]. split; [done|]. simpl.
  rewrite <- Htell, <- Hs. by apply seek_tell.
Qed.
End ExtractProperties.

Lemma index_entries_positioned_witness :
  exists r,
    reads_to (mem_open ten_bytes) r /\
    reader_tell r = 3 /\
    0 <= 3 /\
    stream r = drop 3 (stream (mem_open ten_bytes)).
Proof.
  apply (index_entries_positioned 8 (mem_open ten_bytes) two_members
           ltac:(simpl; repeat split; lia)
           (mkIndexEntry 3 3 4 393217)).
  vm_compute. right. left.
Defined.

Lemma extract_starts_where_indexed_witness :
  exists archive_wrapper,
    main_extract_start 8 index_two_members "dir/b" (mem_open ten_bytes) =
      Returns (extract_wrapped archive_wrapper) /\
    tell archive_wrapper = 3 /\
    stream (reader archive_wrapper) = drop 3 ten_bytes.
Proof.
  destruct (extract_starts_where_indexed 8 8 (mem_open ten_bytes) two_members
              "dir/b" (mkIndexEntry 3 3 4 393217))
    as (archive_wrapper & Hstart & Htell & Hstream).
  - simpl. repeat split; lia.
  - vm_compute; reflexivity.
  - exists archive_wrapper. split; [exact Hstart|].
    split; [exact Htell | exact Hstream].
Defined.

(** ** Listings before and after an insertion *)

Lemma node_at_insert_at_ancestor q : forall n m c rest e,
  node_at n q = Some m ->
  node_at (insert_at n (q ++ c :: rest) e) q =
  Some (mkIndexNode
          (<[c := insert_at (default new_node (children m !! c)) rest e]>
             (children m))
          (entry m)).
Proof.
  induction q as [|part q IH]; intros n m c rest e Hq; simpl in *.
  - by injection Hq as <-.
  - rewrite lookup_insert_eq.
    destruct (children n !! part) as [child|]; [|done]. simpl.
    by apply IH.
Qed.

(** X23. A path inserted where the index had nothing is a file: its own
    listing returns no name, and raises nothing. *)
Theorem inserted_file_lists_nothing depth idx path e idx' :
  insert depth idx path e = Returns idx' ->
  (forall names, readdir depth idx path <> Returns names) ->
  readdir depth idx' path = Returns [].
Proof.
  intros (parts & Hparts & ->)%insert_inv Hnew.
  destruct (node_at (root idx) parts) as [m|] eqn:Hm.
  { destruct (Hnew (get_children m)). by apply (readdir_at depth idx path parts). }
  rewrite (readdir_at depth _ path parts (set_entry new_node e) Hparts).
  - unfold get_children. simpl. by rewrite map_to_list_empty.
  - simpl. by rewrite node_at_insert_at, Hm.
Qed.

Lemma inserted_file_lists_nothing_witness :
  readdir 8 index_b "dir/b" = Returns [].
Proof.
  apply (inserted_file_lists_nothing 8 new_index "dir/b" entry_b index_b).
  - vm_compute; reflexivity.
  - intros names. vm_compute. discriminate.
Defined.

(** X24. What an insertion does to the listings.  A directory that could
    be listed before can be listed after, and its names are those it had
    and, when the directory is a proper ancestor of the inserted path, the
    component of the inserted path that follows it; nothing else. *)
Theorem insert_adds_one_name depth idx path e idx' parts other q names :
  insert depth idx path e = Returns idx' ->
  atomize_path depth path = Returns parts ->
  atomize_path depth other = Returns q ->
  readdir depth idx other = Returns names ->
  exists names',
    readdir depth idx' other = Returns names' /\
    forall name,
      name ∈ names' <->
      name ∈ names \/ exists rest, parts = q ++ name :: rest.
Proof.
  intros (parts' & Hparts' & ->)%insert_inv Hparts Hother.
  rewrite Hparts in Hparts'. injection Hparts' as <-.
  intros (q' & m & Hq' & Hm & ->)%readdir_inv.
  rewrite Hother in Hq'. injection Hq' as <-.
  destruct (decide (q `prefix_of` parts)) as [[rest ->]|Hno].
  - destruct rest as [|c rest].
    + rewrite app_nil_r in *.
      exists (get_children m). split.
      * rewrite (readdir_at depth _ other q (set_entry m e) Hother); [done|].
        simpl. by rewrite node_at_insert_at, Hm.
      * intros name. split; [by left|]. intros [Hin|[rest Hrest]]; [done|].
        rewrite <- (app_nil_r q) in Hrest at 1.
        by apply app_inv_head in Hrest.
    + eexists. split.
      * apply (readdir_at depth _ other q); [done|]. simpl.
        by apply node_at_insert_at_ancestor.
      * intros name. rewrite !elem_of_get_children. simpl. split.
        -- destruct (decide (c = name)) as [->|Hne].
           ++ intros _. right. by exists rest.
           ++ rewrite lookup_insert_ne by done. by left.
        -- intros [Hin|[rest' Hrest]].
           ++ destruct (decide (c = name)) as [->|Hne].
              ** rewrite lookup_insert_eq. eauto.
              ** by rewrite lookup_insert_ne.
           ++ apply app_inv_head in Hrest. injection Hrest as -> _.
              rewrite lookup_insert_eq. eauto.
  - exists (get_children m). split.
    + apply (readdir_at depth _ other q); [done|]. simpl.
      by rewrite node_at_insert_at_other.
    + intros name. split; [by left|]. intros [Hin|[rest Hrest]]; [done|].
      destruct Hno. exists (name :: rest). done.
Qed.

Lemma insert_adds_one_name_witness :
  exists names',
    readdir 8 index_b_then_a "" = Returns names' /\
    forall name,
      name ∈ names' <->
      name ∈ ["dir"] \/ exists rest, ["a"] = [] ++ name :: rest.
Proof.
  apply (insert_adds_one_name 8 index_b "a" entry_a index_b_then_a ["a"] "" []
           ["dir"]); vm_compute; reflexivity.
Defined.
